(** * Job tracker: storage abstraction and data-transformation layer

    A shallow embedding of the persistence core of the job-application
    tracker: the record model ([types/index.ts], [types/supabase.ts]), the
    field transformer ([utils/jobTransformers.ts]), the Local Backend over
    the browser's key-value store ([services/StorageService.ts]), the
    Backend Selector ([services/StorageServiceFactory.ts]), the Remote
    Backend's save path ([services/SupabaseStorageService.ts]), the
    Migration Routine ([services/MigrationService.ts]) and the UPDATE_JOB
    transition of the application reducer ([context/AppContext.tsx]).

    Conventions of the embedding.
    - A TypeScript [string] is a [string]; [T | null] (and an optional
      property, whose absence reads as [undefined]) is an [option T], where
      [None] stands for the nullish value.  Enumerations are string-literal
      unions in the source and stay strings here: legality is a predicate,
      exactly as the type guards of [types/supabase.ts] test it at run time.
    - [new Date().toISOString()] and [crypto.randomUUID()] read the
      environment; their results are explicit arguments ([now], [uuid]).
    - The browser's [localStorage] is a finite map from keys to stored
      values together with the conditions under which an access throws.
    - A thrown exception is a value of an error type; a function that may
      throw returns a sum. *)

From Stdlib Require Import ZArith Bool Permutation.
From Stdlib Require Import Sorted.
From stdpp Require Import gmap strings list.

Local Open Scope string_scope.

(** ** Record model ([types/index.ts]) *)

Definition ApplicationStatuses : list string :=
  ["Saved"; "Applied"; "Interview"; "Offer"; "Rejected"].

Definition ReferralStatuses : list string :=
  ["Not Contacted"; "Contacted"; "Referral Received"; "No Response"].

Definition ReferralOutreachStatuses : list string :=
  ["Have to Find"; "Found Contact"; "Messaged"; "Got Referral";
   "No Response"; "Declined"].

(** [Array.prototype.includes] on an array of strings. *)
Definition includes (xs : list string) (s : string) : bool :=
  existsb (String.eqb s) xs.

Arguments includes : simpl never.

(** JavaScript truthiness of a string and of a nullable string. *)
Definition truthy (s : string) : bool := negb (String.eqb s EmptyString).

Definition truthy_opt (o : option string) : bool :=
  match o with
  | Some s => truthy s
  | None => false
  end.

Record ReferralContact := mkReferralContact {
  rc_id : string;
  rc_name : string;
  rc_contactMethod : string;
  rc_dateContacted : option string;
  rc_status : string
}.

Record JobPosting := mkJobPosting {
  jp_id : string;
  jp_jobId : option string;
  jp_jobTitle : string;
  jp_company : string;
  jp_location : string;
  jp_description : string;
  jp_linkedInUrl : option string;
  jp_applicationLink : option string;
  jp_applicationRequirements : option string;
  jp_applicationDeadline : option string;
  jp_referralMessage : string;
  jp_referralOutreachStatus : string;
  jp_notes : string;
  jp_status : string;
  jp_referralContacts : list ReferralContact;
  jp_dateAdded : string;
  jp_dateApplied : option string;
  jp_lastUpdated : string
}.

(** [Omit<JobPosting, 'id' | 'dateAdded' | 'lastUpdated'>]: a creation
    payload. *)
Record JobData := mkJobData {
  jd_jobId : option string;
  jd_jobTitle : string;
  jd_company : string;
  jd_location : string;
  jd_description : string;
  jd_linkedInUrl : option string;
  jd_applicationLink : option string;
  jd_applicationRequirements : option string;
  jd_applicationDeadline : option string;
  jd_referralMessage : string;
  jd_referralOutreachStatus : string;
  jd_notes : string;
  jd_status : string;
  jd_referralContacts : list ReferralContact;
  jd_dateApplied : option string
}.

(** [Partial<JobPosting>]: a property that is present carries [Some] of its
    value, an absent one is [None]. *)
Record JobUpdates := mkJobUpdates {
  up_id : option string;
  up_jobId : option (option string);
  up_jobTitle : option string;
  up_company : option string;
  up_location : option string;
  up_description : option string;
  up_linkedInUrl : option (option string);
  up_applicationLink : option (option string);
  up_applicationRequirements : option (option string);
  up_applicationDeadline : option (option string);
  up_referralMessage : option string;
  up_referralOutreachStatus : option string;
  up_notes : option string;
  up_status : option string;
  up_referralContacts : option (list ReferralContact);
  up_dateAdded : option string;
  up_dateApplied : option (option string);
  up_lastUpdated : option string
}.

(** The empty update object [{}]. *)
Definition noUpdates : JobUpdates :=
  mkJobUpdates None None None None None None None None None None None None
               None None None None None None.

(** The fields of a record other than identifier, created-at and
    updated-at. *)
Definition jobDataOf (j : JobPosting) : JobData :=
  {| jd_jobId := jp_jobId j;
     jd_jobTitle := jp_jobTitle j;
     jd_company := jp_company j;
     jd_location := jp_location j;
     jd_description := jp_description j;
     jd_linkedInUrl := jp_linkedInUrl j;
     jd_applicationLink := jp_applicationLink j;
     jd_applicationRequirements := jp_applicationRequirements j;
     jd_applicationDeadline := jp_applicationDeadline j;
     jd_referralMessage := jp_referralMessage j;
     jd_referralOutreachStatus := jp_referralOutreachStatus j;
     jd_notes := jp_notes j;
     jd_status := jp_status j;
     jd_referralContacts := jp_referralContacts j;
     jd_dateApplied := jp_dateApplied j |}.

(** ** Relational rows ([types/supabase.ts]) *)

Record DbJobPostingRow := mkDbJobPostingRow {
  row_id : string;
  row_user_id : string;
  row_job_id : option string;
  row_job_title : string;
  row_company : string;
  row_location : string;
  row_description : string;
  row_linkedin_url : option string;
  row_application_link : option string;
  row_application_requirements : option string;
  row_application_deadline : option string;
  row_referral_message : string;
  row_referral_outreach_status : string;
  row_notes : string;
  row_status : string;
  row_referral_contacts : option (list ReferralContact);
  row_date_added : string;
  row_date_applied : option string;
  row_last_updated : string
}.

(** Optional columns of an insert are [option]s: [None] is an omitted (or
    null) column. *)
Record DbJobPostingInsert := mkDbJobPostingInsert {
  ins_user_id : string;
  ins_job_id : option string;
  ins_job_title : string;
  ins_company : string;
  ins_location : string;
  ins_description : string;
  ins_linkedin_url : option string;
  ins_application_link : option string;
  ins_application_requirements : option string;
  ins_application_deadline : option string;
  ins_referral_message : option string;
  ins_referral_outreach_status : option string;
  ins_notes : option string;
  ins_status : option string;
  ins_referral_contacts : option (list ReferralContact);
  ins_date_applied : option string
}.

Definition isValidApplicationStatus (status : string) : bool :=
  includes ApplicationStatuses status.

Definition isValidReferralOutreachStatus (status : string) : bool :=
  includes ReferralOutreachStatuses status.

(** Legality of a contact's referral-status (the [ReferralStatus] union). *)
Definition isValidReferralStatus (status : string) : bool :=
  includes ReferralStatuses status.

(** ** Field transformer ([utils/jobTransformers.ts]) *)

Definition dbRowToJobPosting (row : DbJobPostingRow) : JobPosting :=
  let status :=
    if isValidApplicationStatus (row_status row) then row_status row
    else "Saved" in
  let referralOutreachStatus :=
    if isValidReferralOutreachStatus (row_referral_outreach_status row)
    then row_referral_outreach_status row
    else "Have to Find" in
  {| jp_id := row_id row;
     jp_jobId := row_job_id row;
     jp_jobTitle := row_job_title row;
     jp_company := row_company row;
     jp_location := row_location row;
     jp_description := row_description row;
     jp_linkedInUrl := row_linkedin_url row;
     jp_applicationLink := row_application_link row;
     jp_applicationRequirements := row_application_requirements row;
     jp_applicationDeadline := row_application_deadline row;
     jp_referralMessage := row_referral_message row;
     jp_referralOutreachStatus := referralOutreachStatus;
     jp_notes := row_notes row;
     jp_status := status;
     jp_referralContacts :=
       match row_referral_contacts row with
       | Some contacts => contacts
       | None => []
       end;
     jp_dateAdded := row_date_added row;
     jp_dateApplied := row_date_applied row;
     jp_lastUpdated := row_last_updated row |}.

Definition jobPostingToDbInsert (job : JobData) (userId : string)
  : DbJobPostingInsert :=
  {| ins_user_id := userId;
     ins_job_id := jd_jobId job;
     ins_job_title := jd_jobTitle job;
     ins_company := jd_company job;
     ins_location := jd_location job;
     ins_description := jd_description job;
     ins_linkedin_url := jd_linkedInUrl job;
     ins_application_link := jd_applicationLink job;
     ins_application_requirements := jd_applicationRequirements job;
     ins_application_deadline := jd_applicationDeadline job;
     ins_referral_message := Some (jd_referralMessage job);
     ins_referral_outreach_status := Some (jd_referralOutreachStatus job);
     ins_notes := Some (jd_notes job);
     ins_status := Some (jd_status job);
     ins_referral_contacts := Some (jd_referralContacts job);
     ins_date_applied := jd_dateApplied job |}.

(** The row the store hands back for an insert: the generated identifier
    and the two timestamps are added, the owner column is the insert's, and
    an omitted column takes the column's default
    ([utils/jobTransformers.test.ts] builds its row this way, with [??]). *)
Definition insertedRow (rowId dateAdded lastUpdated : string)
    (dbInsert : DbJobPostingInsert) : DbJobPostingRow :=
  {| row_id := rowId;
     row_user_id := ins_user_id dbInsert;
     row_job_id := ins_job_id dbInsert;
     row_job_title := ins_job_title dbInsert;
     row_company := ins_company dbInsert;
     row_location := ins_location dbInsert;
     row_description := ins_description dbInsert;
     row_linkedin_url := ins_linkedin_url dbInsert;
     row_application_link := ins_application_link dbInsert;
     row_application_requirements := ins_application_requirements dbInsert;
     row_application_deadline := ins_application_deadline dbInsert;
     row_referral_message := default EmptyString (ins_referral_message dbInsert);
     row_referral_outreach_status :=
       default "Have to Find" (ins_referral_outreach_status dbInsert);
     row_notes := default EmptyString (ins_notes dbInsert);
     row_status := default "Saved" (ins_status dbInsert);
     row_referral_contacts :=
       Some (default [] (ins_referral_contacts dbInsert));
     row_date_added := dateAdded;
     row_date_applied := ins_date_applied dbInsert;
     row_last_updated := lastUpdated |}.

(** ** Backend selector ([services/StorageServiceFactory.ts]) *)

Inductive StorageBackend :=
| SupabaseStorageService (userId : string)
| LocalStorageServiceAsync.

Definition createStorageService (userId : option string) : StorageBackend :=
  match userId with
  | Some u =>
      if truthy u then SupabaseStorageService u else LocalStorageServiceAsync
  | None => LocalStorageServiceAsync
  end.

(** [isAvailable] of the remote backend: [!!this.userId]. *)
Definition supabaseIsAvailable (userId : string) : bool := truthy userId.

(** ** Local backend ([services/StorageService.ts]) *)

(** What one key of [localStorage] holds: the JSON text of an array of job
    records, or any other text.  [JSON.parse] of the former gives the
    array back; the latter is empty (falsy), fails to parse, or parses to
    something that is not an array, and every such case ends in the
    function's [return []].  Text that parses to an array of something
    other than job records has no value here: the model is about stores
    whose array, if any, holds records. *)
Inductive StoredValue :=
| JobsJson (jobs : list JobPosting)
| OtherText (text : string).

(** [ls_denied]: every access to [window.localStorage] throws (storage
    disabled, private browsing). *)
Record LocalStorage := mkLocalStorage {
  ls_denied : bool;
  ls_items : gmap string StoredValue
}.

Definition STORAGE_KEY : string := "linkedin-job-tracker-jobs".
Definition testKey : string := "__storage_test__".

(** [{...job, ...updates}] *)
Definition spread (job : JobPosting) (updates : JobUpdates) : JobPosting :=
  {| jp_id := default (jp_id job) (up_id updates);
     jp_jobId := default (jp_jobId job) (up_jobId updates);
     jp_jobTitle := default (jp_jobTitle job) (up_jobTitle updates);
     jp_company := default (jp_company job) (up_company updates);
     jp_location := default (jp_location job) (up_location updates);
     jp_description := default (jp_description job) (up_description updates);
     jp_linkedInUrl := default (jp_linkedInUrl job) (up_linkedInUrl updates);
     jp_applicationLink :=
       default (jp_applicationLink job) (up_applicationLink updates);
     jp_applicationRequirements :=
       default (jp_applicationRequirements job)
               (up_applicationRequirements updates);
     jp_applicationDeadline :=
       default (jp_applicationDeadline job) (up_applicationDeadline updates);
     jp_referralMessage :=
       default (jp_referralMessage job) (up_referralMessage updates);
     jp_referralOutreachStatus :=
       default (jp_referralOutreachStatus job)
               (up_referralOutreachStatus updates);
     jp_notes := default (jp_notes job) (up_notes updates);
     jp_status := default (jp_status job) (up_status updates);
     jp_referralContacts :=
       default (jp_referralContacts job) (up_referralContacts updates);
     jp_dateAdded := default (jp_dateAdded job) (up_dateAdded updates);
     jp_dateApplied := default (jp_dateApplied job) (up_dateApplied updates);
     jp_lastUpdated := default (jp_lastUpdated job) (up_lastUpdated updates) |}.

(** [{...job, id, dateAdded, lastUpdated}] *)
Definition withIdentity (id dateAdded lastUpdated : string)
    (job : JobPosting) : JobPosting :=
  {| jp_id := id;
     jp_jobId := jp_jobId job;
     jp_jobTitle := jp_jobTitle job;
     jp_company := jp_company job;
     jp_location := jp_location job;
     jp_description := jp_description job;
     jp_linkedInUrl := jp_linkedInUrl job;
     jp_applicationLink := jp_applicationLink job;
     jp_applicationRequirements := jp_applicationRequirements job;
     jp_applicationDeadline := jp_applicationDeadline job;
     jp_referralMessage := jp_referralMessage job;
     jp_referralOutreachStatus := jp_referralOutreachStatus job;
     jp_notes := jp_notes job;
     jp_status := jp_status job;
     jp_referralContacts := jp_referralContacts job;
     jp_dateAdded := dateAdded;
     jp_dateApplied := jp_dateApplied job;
     jp_lastUpdated := lastUpdated |}.

(** [{...job, lastUpdated}] and [{...job, dateApplied}] *)
Definition withLastUpdated (lastUpdated : string) (job : JobPosting)
  : JobPosting :=
  withIdentity (jp_id job) (jp_dateAdded job) lastUpdated job.

Definition withDateApplied (dateApplied : option string) (job : JobPosting)
  : JobPosting :=
  {| jp_id := jp_id job;
     jp_jobId := jp_jobId job;
     jp_jobTitle := jp_jobTitle job;
     jp_company := jp_company job;
     jp_location := jp_location job;
     jp_description := jp_description job;
     jp_linkedInUrl := jp_linkedInUrl job;
     jp_applicationLink := jp_applicationLink job;
     jp_applicationRequirements := jp_applicationRequirements job;
     jp_applicationDeadline := jp_applicationDeadline job;
     jp_referralMessage := jp_referralMessage job;
     jp_referralOutreachStatus := jp_referralOutreachStatus job;
     jp_notes := jp_notes job;
     jp_status := jp_status job;
     jp_referralContacts := jp_referralContacts job;
     jp_dateAdded := jp_dateAdded job;
     jp_dateApplied := dateApplied;
     jp_lastUpdated := jp_lastUpdated job |}.

(** [{...jobData, id, dateAdded, lastUpdated}] *)
Definition newRecord (id dateAdded lastUpdated : string) (jobData : JobData)
  : JobPosting :=
  {| jp_id := id;
     jp_jobId := jd_jobId jobData;
     jp_jobTitle := jd_jobTitle jobData;
     jp_company := jd_company jobData;
     jp_location := jd_location jobData;
     jp_description := jd_description jobData;
     jp_linkedInUrl := jd_linkedInUrl jobData;
     jp_applicationLink := jd_applicationLink jobData;
     jp_applicationRequirements := jd_applicationRequirements jobData;
     jp_applicationDeadline := jd_applicationDeadline jobData;
     jp_referralMessage := jd_referralMessage jobData;
     jp_referralOutreachStatus := jd_referralOutreachStatus jobData;
     jp_notes := jd_notes jobData;
     jp_status := jd_status jobData;
     jp_referralContacts := jd_referralContacts jobData;
     jp_dateAdded := dateAdded;
     jp_dateApplied := jd_dateApplied jobData;
     jp_lastUpdated := lastUpdated |}.

(** The record literal of [updateJob]:
    [{...job, ...updates, id: job.id, dateAdded: job.dateAdded,
      lastUpdated: now}]. *)
Definition mergedRecord (now : string) (job : JobPosting)
    (updates : JobUpdates) : JobPosting :=
  withIdentity (jp_id job) (jp_dateAdded job) now (spread job updates).

(** [Array.prototype.findIndex]; [None] is the source's [-1]. *)
Fixpoint findIndex {A} (p : A -> bool) (xs : list A) : option nat :=
  match xs with
  | [] => None
  | x :: rest => if p x then Some 0 else S <$> findIndex p rest
  end.

Definition hasId (id : string) (job : JobPosting) : bool :=
  String.eqb (jp_id job) id.

(** The two services of the JavaScript runtime the backend depends on.
    [getTime s] is [new Date(s).getTime()], with [None] for [NaN];
    [quotaAllows items key value] tells whether the browser accepts
    [setItem(key, value)] when the store holds [items]. *)
Class Runtime := {
  getTime : string -> option Z;
  quotaAllows : gmap string StoredValue -> string -> StoredValue -> bool
}.

Section LocalBackend.

Context `{Runtime}.

(** Storage accesses; [None] is a thrown exception. *)
Definition setItem (key : string) (value : StoredValue) (ls : LocalStorage)
  : option LocalStorage :=
  if ls_denied ls then None
  else if quotaAllows (ls_items ls) key value
       then Some (mkLocalStorage (ls_denied ls) (<[key := value]> (ls_items ls)))
       else None.

Definition removeItem (key : string) (ls : LocalStorage)
  : option LocalStorage :=
  if ls_denied ls then None
  else Some (mkLocalStorage (ls_denied ls) (delete key (ls_items ls))).

Definition getItem (key : string) (ls : LocalStorage)
  : option (option StoredValue) :=
  if ls_denied ls then None else Some (ls_items ls !! key).

Definition isStorageAvailable (ls : LocalStorage) : bool * LocalStorage :=
  match setItem testKey (OtherText testKey) ls with
  | None => (false, ls)
  | Some ls1 =>
      match removeItem testKey ls1 with
      | None => (false, ls1)
      | Some ls2 => (true, ls2)
      end
  end.

(** The comparator of [getAllJobs]; a [NaN] difference counts as [0], as
    [Array.prototype.sort] reads it. *)
Definition compareByDateAdded (a b : JobPosting) : Z :=
  match getTime (jp_dateAdded b), getTime (jp_dateAdded a) with
  | Some tb, Some ta => (tb - ta)%Z
  | _, _ => 0%Z
  end.

(** [Array.prototype.sort] is stable: an insertion sort that keeps equal
    elements in their order. *)
Fixpoint insertSorted (x : JobPosting) (sorted : list JobPosting)
  : list JobPosting :=
  match sorted with
  | [] => [x]
  | y :: rest =>
      if (compareByDateAdded x y <=? 0)%Z then x :: y :: rest
      else y :: insertSorted x rest
  end.

Definition sortNewestFirst (jobs : list JobPosting) : list JobPosting :=
  foldr insertSorted [] jobs.

Definition getAllJobs (ls : LocalStorage) : list JobPosting * LocalStorage :=
  let '(available, ls1) := isStorageAvailable ls in
  if negb available then ([], ls1)
  else
    match getItem STORAGE_KEY ls1 with
    | Some (Some (JobsJson jobs)) => (sortNewestFirst jobs, ls1)
    | Some (Some (OtherText _)) => ([], ls1)
    | Some None => ([], ls1)
    | None => ([], ls1)
    end.

Definition saveAllJobs (jobs : list JobPosting) (ls : LocalStorage)
  : bool * LocalStorage :=
  let '(available, ls1) := isStorageAvailable ls in
  if negb available then (false, ls1)
  else
    match setItem STORAGE_KEY (JobsJson jobs) ls1 with
    | Some ls2 => (true, ls2)
    | None => (false, ls1)
    end.

Definition saveJob (now uuid : string) (jobData : JobData)
    (ls : LocalStorage) : JobPosting * LocalStorage :=
  let newJob := newRecord uuid now now jobData in
  let '(jobs, ls1) := getAllJobs ls in
  let '(_, ls2) := saveAllJobs (jobs ++ [newJob]) ls1 in
  (newJob, ls2).

Definition getJob (id : string) (ls : LocalStorage)
  : option JobPosting * LocalStorage :=
  let '(jobs, ls1) := getAllJobs ls in
  (List.find (hasId id) jobs, ls1).

Definition updateJob (now : string) (id : string) (updates : JobUpdates)
    (ls : LocalStorage) : option JobPosting * LocalStorage :=
  let '(jobs, ls1) := getAllJobs ls in
  match findIndex (hasId id) jobs with
  | None => (None, ls1)
  | Some index =>
      match jobs !! index with
      | None => (None, ls1)
      | Some job =>
          let updatedJob := mergedRecord now job updates in
          let '(_, ls2) := saveAllJobs (<[index := updatedJob]> jobs) ls1 in
          (Some updatedJob, ls2)
      end
  end.

Definition deleteJob (id : string) (ls : LocalStorage)
  : bool * LocalStorage :=
  let '(jobs, ls1) := getAllJobs ls in
  let filteredJobs := List.filter (fun job => negb (hasId id job)) jobs in
  if (length filteredJobs =? length jobs)%nat then (false, ls1)
  else saveAllJobs filteredJobs ls1.

(** [clearLocalData] of the migration service. *)
Definition clearLocalData (ls : LocalStorage) : LocalStorage :=
  match removeItem STORAGE_KEY ls with
  | Some ls1 => ls1
  | None => ls
  end.

End LocalBackend.

(** ** Application state ([context/AppContext.tsx]) *)

Record AppState := mkAppState {
  st_jobs : list JobPosting;
  st_searchQuery : string;
  st_statusFilter : string;
  st_selectedJobId : option string;
  st_isAddModalOpen : bool;
  st_isLoading : bool;
  st_error : option string
}.

Inductive AppAction :=
| SET_JOBS (payload : list JobPosting)
| ADD_JOB (payload : JobPosting)
| UPDATE_JOB (id : string) (updates : JobUpdates)
| DELETE_JOB (payload : string)
| SET_SEARCH (payload : string)
| SET_FILTER (payload : string)
| SELECT_JOB (payload : option string)
| TOGGLE_ADD_MODAL (payload : bool)
| SET_LOADING (payload : bool)
| SET_ERROR (payload : option string).

(** The test that guards the automatic applied-at stamp, written out twice
    in the source (reducer and [updateJob] callback):
    [updates.status === 'Applied' && job.status !== 'Applied' &&
     !job.dateApplied]. *)
Definition turnsApplied (updates : JobUpdates) (job : JobPosting) : bool :=
  match up_status updates with
  | Some s => String.eqb s "Applied"
  | None => false
  end
  && negb (String.eqb (jp_status job) "Applied")
  && negb (truthy_opt (jp_dateApplied job)).

(** The callback mapped over the jobs by UPDATE_JOB. *)
Definition reduceJob (now id : string) (updates : JobUpdates)
    (job : JobPosting) : JobPosting :=
  if negb (String.eqb (jp_id job) id) then job
  else
    let updatedJob := withLastUpdated now (spread job updates) in
    if turnsApplied updates job
    then withDateApplied (Some now) updatedJob
    else updatedJob.

Definition withJobs (jobs : list JobPosting) (state : AppState) : AppState :=
  mkAppState jobs (st_searchQuery state) (st_statusFilter state)
             (st_selectedJobId state) (st_isAddModalOpen state)
             (st_isLoading state) (st_error state).

Definition appReducer (now : string) (state : AppState) (action : AppAction)
  : AppState :=
  match action with
  | SET_JOBS payload =>
      mkAppState payload (st_searchQuery state) (st_statusFilter state)
                 (st_selectedJobId state) (st_isAddModalOpen state)
                 false (st_error state)
  | ADD_JOB payload => withJobs (payload :: st_jobs state) state
  | UPDATE_JOB id updates =>
      withJobs (map (reduceJob now id updates) (st_jobs state)) state
  | DELETE_JOB payload =>
      mkAppState
        (List.filter (fun job => negb (String.eqb (jp_id job) payload))
                     (st_jobs state))
        (st_searchQuery state) (st_statusFilter state)
        (match st_selectedJobId state with
         | Some sel => if String.eqb sel payload then None else Some sel
         | None => None
         end)
        (st_isAddModalOpen state) (st_isLoading state) (st_error state)
  | SET_SEARCH payload =>
      mkAppState (st_jobs state) payload (st_statusFilter state)
                 (st_selectedJobId state) (st_isAddModalOpen state)
                 (st_isLoading state) (st_error state)
  | SET_FILTER payload =>
      mkAppState (st_jobs state) (st_searchQuery state) payload
                 (st_selectedJobId state) (st_isAddModalOpen state)
                 (st_isLoading state) (st_error state)
  | SELECT_JOB payload =>
      mkAppState (st_jobs state) (st_searchQuery state) (st_statusFilter state)
                 payload (st_isAddModalOpen state)
                 (st_isLoading state) (st_error state)
  | TOGGLE_ADD_MODAL payload =>
      mkAppState (st_jobs state) (st_searchQuery state) (st_statusFilter state)
                 (st_selectedJobId state) payload
                 (st_isLoading state) (st_error state)
  | SET_LOADING payload =>
      mkAppState (st_jobs state) (st_searchQuery state) (st_statusFilter state)
                 (st_selectedJobId state) (st_isAddModalOpen state)
                 payload (st_error state)
  | SET_ERROR payload =>
      mkAppState (st_jobs state) (st_searchQuery state) (st_statusFilter state)
                 (st_selectedJobId state) (st_isAddModalOpen state)
                 (st_isLoading state) payload
  end.

(** [{...updates, lastUpdated: now}] and [{...finalUpdates, dateApplied: now}]
    of the [updateJob] callback. *)
Definition updatesWithLastUpdated (now : string) (u : JobUpdates)
  : JobUpdates :=
  mkJobUpdates (up_id u) (up_jobId u) (up_jobTitle u) (up_company u)
    (up_location u) (up_description u) (up_linkedInUrl u)
    (up_applicationLink u) (up_applicationRequirements u)
    (up_applicationDeadline u) (up_referralMessage u)
    (up_referralOutreachStatus u) (up_notes u) (up_status u)
    (up_referralContacts u) (up_dateAdded u) (up_dateApplied u) (Some now).

Definition updatesWithDateApplied (now : string) (u : JobUpdates)
  : JobUpdates :=
  mkJobUpdates (up_id u) (up_jobId u) (up_jobTitle u) (up_company u)
    (up_location u) (up_description u) (up_linkedInUrl u)
    (up_applicationLink u) (up_applicationRequirements u)
    (up_applicationDeadline u) (up_referralMessage u)
    (up_referralOutreachStatus u) (up_notes u) (up_status u)
    (up_referralContacts u) (up_dateAdded u) (Some (Some now))
    (up_lastUpdated u).

(** The update object the [updateJob] callback hands to the backend. *)
Definition finalUpdates (now : string) (currentJob : JobPosting)
    (updates : JobUpdates) : JobUpdates :=
  let final := updatesWithLastUpdated now updates in
  if turnsApplied updates currentJob
  then updatesWithDateApplied now final
  else final.

(** [updateJobStatus(id, status)] passes the update object [{ status }]. *)
Definition statusUpdate (status : string) : JobUpdates :=
  mkJobUpdates None None None None None None None None None None None None
               None (Some status) None None None None.

Section ContextOverLocalBackend.

Context `{Runtime}.

(** The persistence half of the [updateJob] callback, over the Local
    Backend; [now] is the callback's clock reading and [later] the
    backend's. *)
Definition persistUpdate (now later id : string) (updates : JobUpdates)
    (ls : LocalStorage) : LocalStorage :=
  let '(currentJob, ls1) := getJob id ls in
  match currentJob with
  | Some job =>
      snd (updateJob later id
                     (finalUpdates now job updates) ls1)
  | None => ls1
  end.

End ContextOverLocalBackend.

(** ** Remote backend, save path ([services/SupabaseStorageService.ts]) *)

(** A thrown value: an [Error] with its message, or anything else. *)
Inductive Thrown :=
| ErrorObject (message : string)
| NonError.

(** What awaiting the store's insert gives: the inserted row, a structured
    error with its message, or a rejection. *)
Inductive StoreReply :=
| ReplyData (data : DbJobPostingRow)
| ReplyError (message : string)
| Rejected (e : Thrown).

Record MigrationResult := mkMigrationResult {
  success : bool;
  migratedCount : nat;
  totalCount : nat;
  errors : list string
}.

(** The payload [migrateToCloud] builds from a local record;
    [x || null] turns a falsy value into null. *)
Definition orNull (o : option string) : option string :=
  if truthy_opt o then o else None.

Definition migrationData (job : JobPosting) : JobData :=
  {| jd_jobId := jp_jobId job;
     jd_jobTitle := jp_jobTitle job;
     jd_company := jp_company job;
     jd_location := jp_location job;
     jd_description := jp_description job;
     jd_linkedInUrl := jp_linkedInUrl job;
     jd_applicationLink := jp_applicationLink job;
     jd_applicationRequirements := orNull (jp_applicationRequirements job);
     jd_applicationDeadline := orNull (jp_applicationDeadline job);
     jd_referralMessage := jp_referralMessage job;
     jd_referralOutreachStatus := jp_referralOutreachStatus job;
     jd_notes := jp_notes job;
     jd_status := jp_status job;
     jd_referralContacts := jp_referralContacts job;
     jd_dateApplied := jp_dateApplied job |}.

(** The one-character string holding a double quote. *)
Definition dquote : string := String (Ascii.ascii_of_nat 34) EmptyString.

(** [error instanceof Error ? error.message : 'Unknown error'] *)
Definition errorMessage (e : Thrown) : string :=
  match e with
  | ErrorObject message => message
  | NonError => "Unknown error"
  end.

(** The entry pushed on [result.errors] for a record whose save threw. *)
Definition migrationError (job : JobPosting) (e : Thrown) : string :=
  "Failed to migrate job " +:+ dquote +:+ jp_jobTitle job +:+ dquote
    +:+ " at " +:+ jp_company job +:+ ": " +:+ errorMessage e.

(** The relational store: its state, and what an insert does to it and
    answers. *)
Class RemoteStore (Remote : Type) := {
  insertRow : DbJobPostingInsert -> Remote -> StoreReply * Remote
}.

Section Migration.

Context `{Runtime} `{RemoteStore Remote}.

(** [SupabaseStorageService.saveJob]: the record read back, or the value
    thrown. *)
Definition supabaseSaveJob (userId : string) (jobData : JobData)
    (remote : Remote) : (Thrown + JobPosting) * Remote :=
  let dbInsert := jobPostingToDbInsert jobData userId in
  match insertRow dbInsert remote with
  | (ReplyError message, remote1) =>
      (inl (ErrorObject ("Failed to save job: " +:+ message)), remote1)
  | (ReplyData data, remote1) => (inr (dbRowToJobPosting data), remote1)
  | (Rejected e, remote1) => (inl e, remote1)
  end.

(** The body of the [for (const job of localJobs)] loop, on the mutable
    [result]. *)
Definition migrateOne (userId : string) (job : JobPosting)
    (result : MigrationResult) (remote : Remote)
  : MigrationResult * Remote :=
  match supabaseSaveJob userId (migrationData job) remote with
  | (inr _, remote1) =>
      (mkMigrationResult (success result) (S (migratedCount result))
                         (totalCount result) (errors result), remote1)
  | (inl e, remote1) =>
      (mkMigrationResult (success result) (migratedCount result)
                         (totalCount result)
                         (errors result ++ [migrationError job e]), remote1)
  end.

Fixpoint migrateLoop (userId : string) (localJobs : list JobPosting)
    (result : MigrationResult) (remote : Remote)
  : MigrationResult * Remote :=
  match localJobs with
  | [] => (result, remote)
  | job :: rest =>
      let '(result1, remote1) := migrateOne userId job result remote in
      migrateLoop userId rest result1 remote1
  end.

(** [migrateToCloud].  Nothing the outer [try] encloses throws in this
    model ([getAllJobs] catches its own failures, the constructor and the
    inner [catch] block do not throw on records), so the outer [catch]
    has no counterpart. *)
Definition migrateToCloud (userId : string) (ls : LocalStorage)
    (remote : Remote) : MigrationResult * LocalStorage * Remote :=
  let result := mkMigrationResult false 0 0 [] in
  let '(localJobs, ls1) := getAllJobs ls in
  let result :=
    mkMigrationResult (success result) (migratedCount result)
                      (length localJobs) (errors result) in
  if (length localJobs =? 0)%nat
  then (mkMigrationResult true (migratedCount result) (totalCount result)
                          (errors result), ls1, remote)
  else
    let '(result1, remote1) := migrateLoop userId localJobs result remote in
    (mkMigrationResult (migratedCount result1 =? totalCount result1)%nat
                       (migratedCount result1) (totalCount result1)
                       (errors result1), ls1, remote1).

(** The save attempted for each record in turn, with what it returned or
    threw: the run of the remote store that a migration of [jobs]
    produces. *)
Fixpoint saveAttempts (userId : string) (jobs : list JobPosting)
    (remote : Remote) : list (JobPosting * (Thrown + JobPosting)) :=
  match jobs with
  | [] => []
  | job :: rest =>
      let '(outcome, remote1) :=
        supabaseSaveJob userId (migrationData job) remote in
      (job, outcome) :: saveAttempts userId rest remote1
  end.

Definition saved (attempt : JobPosting * (Thrown + JobPosting)) : bool :=
  match snd attempt with
  | inr _ => true
  | inl _ => false
  end.

Definition failureOf (attempt : JobPosting * (Thrown + JobPosting))
  : option string :=
  match snd attempt with
  | inr _ => None
  | inl e => Some (migrationError (fst attempt) e)
  end.

End Migration.

(** * Specification vocabulary and sample data *)

(** A well-typed creation payload: its two job-level enumerations hold
    members of their unions. *)
Definition wellTypedJobData (p : JobData) : Prop :=
  jd_status p ∈ ApplicationStatuses /\
  jd_referralOutreachStatus p ∈ ReferralOutreachStatuses.

(** Every enumeration-valued field of a record, contacts included, holds a
    legal value. *)
Definition enumerationsLegal (j : JobPosting) : bool :=
  isValidApplicationStatus (jp_status j)
  && isValidReferralOutreachStatus (jp_referralOutreachStatus j)
  && forallb (fun c => isValidReferralStatus (rc_status c)) (jp_referralContacts j).

(** A row as hand-edited storage may hold it: the contact's referral-status
    is not a member of its enumeration. *)
Definition rowWithStaleContact : DbJobPostingRow :=
  {| row_id := "row-7";
     row_user_id := "user-1";
     row_job_id := None;
     row_job_title := "Test Job";
     row_company := "Test Company";
     row_location := "Test Location";
     row_description := "Test Description";
     row_linkedin_url := None;
     row_application_link := None;
     row_application_requirements := None;
     row_application_deadline := None;
     row_referral_message := EmptyString;
     row_referral_outreach_status := "Messaged";
     row_notes := EmptyString;
     row_status := "Applied";
     row_referral_contacts :=
       Some [mkReferralContact "c-9" "Bob" "email" None "Ghosted"];
     row_date_added := "2024-01-01T00:00:00.000Z";
     row_date_applied := None;
     row_last_updated := "2024-01-01T00:00:00.000Z" |}.

Definition sampleContact : ReferralContact :=
  mkReferralContact "c-1" "Ada" "ada@example.com" None "Not Contacted".

Definition sampleJobData : JobData :=
  {| jd_jobId := None;
     jd_jobTitle := "Software Engineer";
     jd_company := "Acme";
     jd_location := "Remote";
     jd_description := "Build things";
     jd_linkedInUrl := None;
     jd_applicationLink := Some "https://acme.example/apply";
     jd_applicationRequirements := None;
     jd_applicationDeadline := Some "2026-01-31";
     jd_referralMessage := "Hello";
     jd_referralOutreachStatus := "Have to Find";
     jd_notes := EmptyString;
     jd_status := "Saved";
     jd_referralContacts := [sampleContact];
     jd_dateApplied := None |}.

(** A stand-in for [new Date(s).getTime()] on the 24-character UTC texts
    that [toISOString] produces: the digits of the text read as one decimal
    number, which orders such texts as their instants are ordered; any other
    text is an invalid date. *)
Fixpoint digitsOf (s : string) (acc : Z) : Z :=
  match s with
  | EmptyString => acc
  | String c rest =>
      let n := Ascii.nat_of_ascii c in
      if (48 <=? n)%nat && (n <=? 57)%nat
      then digitsOf rest (10 * acc + Z.of_nat (n - 48))%Z
      else digitsOf rest acc
  end.

Definition isoOrdinal (s : string) : option Z :=
  if (String.length s =? 24)%nat then Some (digitsOf s 0%Z) else None.

(** A browser with room to spare, and one whose quota is exhausted for
    everything but the availability probe. *)
Definition roomyBrowser : Runtime :=
  {| getTime := isoOrdinal; quotaAllows := fun _ _ _ => true |}.

Definition fullBrowser : Runtime :=
  {| getTime := isoOrdinal;
     quotaAllows := fun _ key _ => String.eqb key testKey |}.

Definition emptyStorage : LocalStorage := mkLocalStorage false ∅.

Definition deniedStorage : LocalStorage := mkLocalStorage true ∅.

Definition sampleJob : JobPosting :=
  newRecord "id-1" "2024-01-01T00:00:00.000Z" "2024-01-01T00:00:00.000Z"
            sampleJobData.

Definition olderJob : JobPosting :=
  newRecord "id-0" "2023-06-15T10:00:00.000Z" "2023-06-15T10:00:00.000Z"
            sampleJobData.

Definition storageWith (jobs : list JobPosting) : LocalStorage :=
  mkLocalStorage false {[ STORAGE_KEY := JobsJson jobs ]}.

(** Every field the update object does not name keeps its value (identifier,
    created-at and updated-at are dealt with apart). *)
Definition keepsUnnamedFields (u : JobUpdates) (old new : JobPosting) : Prop :=
  (up_jobId u = None -> jp_jobId new = jp_jobId old) /\
  (up_jobTitle u = None -> jp_jobTitle new = jp_jobTitle old) /\
  (up_company u = None -> jp_company new = jp_company old) /\
  (up_location u = None -> jp_location new = jp_location old) /\
  (up_description u = None -> jp_description new = jp_description old) /\
  (up_linkedInUrl u = None -> jp_linkedInUrl new = jp_linkedInUrl old) /\
  (up_applicationLink u = None ->
   jp_applicationLink new = jp_applicationLink old) /\
  (up_applicationRequirements u = None ->
   jp_applicationRequirements new = jp_applicationRequirements old) /\
  (up_applicationDeadline u = None ->
   jp_applicationDeadline new = jp_applicationDeadline old) /\
  (up_referralMessage u = None ->
   jp_referralMessage new = jp_referralMessage old) /\
  (up_referralOutreachStatus u = None ->
   jp_referralOutreachStatus new = jp_referralOutreachStatus old) /\
  (up_notes u = None -> jp_notes new = jp_notes old) /\
  (up_status u = None -> jp_status new = jp_status old) /\
  (up_referralContacts u = None ->
   jp_referralContacts new = jp_referralContacts old) /\
  (up_dateApplied u = None -> jp_dateApplied new = jp_dateApplied old).

(** Every field the update object names takes the value given for it. *)
Definition takesNamedFields (u : JobUpdates) (new : JobPosting) : Prop :=
  (forall v, up_jobId u = Some v -> jp_jobId new = v) /\
  (forall v, up_jobTitle u = Some v -> jp_jobTitle new = v) /\
  (forall v, up_company u = Some v -> jp_company new = v) /\
  (forall v, up_location u = Some v -> jp_location new = v) /\
  (forall v, up_description u = Some v -> jp_description new = v) /\
  (forall v, up_linkedInUrl u = Some v -> jp_linkedInUrl new = v) /\
  (forall v, up_applicationLink u = Some v -> jp_applicationLink new = v) /\
  (forall v, up_applicationRequirements u = Some v ->
             jp_applicationRequirements new = v) /\
  (forall v, up_applicationDeadline u = Some v ->
             jp_applicationDeadline new = v) /\
  (forall v, up_referralMessage u = Some v -> jp_referralMessage new = v) /\
  (forall v, up_referralOutreachStatus u = Some v ->
             jp_referralOutreachStatus new = v) /\
  (forall v, up_notes u = Some v -> jp_notes new = v) /\
  (forall v, up_status u = Some v -> jp_status new = v) /\
  (forall v, up_referralContacts u = Some v -> jp_referralContacts new = v) /\
  (forall v, up_dateApplied u = Some v -> jp_dateApplied new = v).

(** [a] and [b] are valid dates and [a] is not later than [b]. *)
Definition notLaterThan `{Runtime} (a b : string) : Prop :=
  match getTime a, getTime b with
  | Some ta, Some tb => (ta <= tb)%Z
  | _, _ => False
  end.

(** A relational store for the examples: its state is the table; it rejects
    the connection for one employer, answers a structured error for an
    empty title, and otherwise inserts the row. *)
Definition sampleInsert (dbInsert : DbJobPostingInsert)
    (table : list DbJobPostingRow) : StoreReply * list DbJobPostingRow :=
  if String.eqb (ins_company dbInsert) "Unreachable Inc"
  then (Rejected NonError, table)
  else if String.eqb (ins_job_title dbInsert) EmptyString
  then (ReplyError "null value in column job_title", table)
  else
    let row := insertedRow ("row-" +:+ ins_job_title dbInsert)
                           "2025-03-01T09:30:00.000Z"
                           "2025-03-01T09:30:00.000Z" dbInsert in
    (ReplyData row, (table ++ [row])%list).

Definition sampleStore : RemoteStore (list DbJobPostingRow) :=
  {| insertRow := sampleInsert |}.

Definition untitledJob : JobPosting :=
  withIdentity "id-3" "2024-02-01T00:00:00.000Z" "2024-02-01T00:00:00.000Z"
    (spread sampleJob
       (mkJobUpdates None None (Some EmptyString) (Some "Initech") None None
                     None None None None None None None None None None None
                     None)).

Definition unreachableJob : JobPosting :=
  withIdentity "id-4" "2024-03-01T00:00:00.000Z" "2024-03-01T00:00:00.000Z"
    (spread sampleJob
       (mkJobUpdates None None (Some "Analyst") (Some "Unreachable Inc") None
                     None None None None None None None None None None None
                     None None)).

(** One call of the [updateJob] callback: the callback's clock reading, the
    backend's later one, and the update object. *)
Record UpdateCall := mkUpdateCall {
  uc_now : string;
  uc_later : string;
  uc_updates : JobUpdates
}.

(** One UPDATE_JOB action as the reducer handles it: the reducer's own clock
    reading and the update object. *)
Record Dispatch := mkDispatch {
  dp_now : string;
  dp_updates : JobUpdates
}.

(** The update object asks for the status "Applied". *)
Definition asksApplied (u : JobUpdates) : bool :=
  match up_status u with
  | Some s => String.eqb s "Applied"
  | None => false
  end.

(** The update object does not itself name applied-at. *)
Definition leavesDateApplied (u : JobUpdates) : Prop :=
  up_dateApplied u = None.

Definition statusCall (now later status : string) : UpdateCall :=
  mkUpdateCall now later (statusUpdate status).

Definition statusDispatch (now status : string) : Dispatch :=
  mkDispatch now (statusUpdate status).

(** * Further parts of the code *)

(** ** Contact management ([services/ContactService.ts]) *)

Record AddContactInput := mkAddContactInput {
  ci_name : string;
  ci_contactMethod : string;
  ci_dateContacted : option string
}.

(** [{...job, referralContacts, lastUpdated}] *)
Definition withContacts (referralContacts : list ReferralContact)
    (lastUpdated : string) (job : JobPosting) : JobPosting :=
  {| jp_id := jp_id job;
     jp_jobId := jp_jobId job;
     jp_jobTitle := jp_jobTitle job;
     jp_company := jp_company job;
     jp_location := jp_location job;
     jp_description := jp_description job;
     jp_linkedInUrl := jp_linkedInUrl job;
     jp_applicationLink := jp_applicationLink job;
     jp_applicationRequirements := jp_applicationRequirements job;
     jp_applicationDeadline := jp_applicationDeadline job;
     jp_referralMessage := jp_referralMessage job;
     jp_referralOutreachStatus := jp_referralOutreachStatus job;
     jp_notes := jp_notes job;
     jp_status := jp_status job;
     jp_referralContacts := referralContacts;
     jp_dateAdded := jp_dateAdded job;
     jp_dateApplied := jp_dateApplied job;
     jp_lastUpdated := lastUpdated |}.

(** [addContact]; [contactId] is what [generateContactId()] returned and
    [now] the clock reading. *)
Definition addContact (now contactId : string) (job : JobPosting)
    (contactInput : AddContactInput) : JobPosting :=
  let newContact :=
    {| rc_id := contactId;
       rc_name := ci_name contactInput;
       rc_contactMethod := ci_contactMethod contactInput;
       rc_dateContacted := ci_dateContacted contactInput;
       rc_status := "Not Contacted" |} in
  withContacts (jp_referralContacts job ++ [newContact]) now job.

Definition contactHasId (contactId : string) (c : ReferralContact) : bool :=
  String.eqb (rc_id c) contactId.

(** The contact literal of [updateContactStatus]:
    [{...contact, status: newStatus, dateContacted: newStatus === 'Contacted'
      && !contact.dateContacted ? now : contact.dateContacted}]. *)
Definition contactWithStatus (now newStatus : string) (c : ReferralContact)
  : ReferralContact :=
  {| rc_id := rc_id c;
     rc_name := rc_name c;
     rc_contactMethod := rc_contactMethod c;
     rc_dateContacted :=
       if String.eqb newStatus "Contacted"
          && negb (truthy_opt (rc_dateContacted c))
       then Some now
       else rc_dateContacted c;
     rc_status := newStatus |}.

(** [updateContactStatus]; the function reads the clock twice, for the
    contact ([now]) and then for the job ([later]). *)
Definition updateContactStatus (now later : string) (job : JobPosting)
    (contactId newStatus : string) : JobPosting :=
  match findIndex (contactHasId contactId) (jp_referralContacts job) with
  | None => job
  | Some contactIndex =>
      match jp_referralContacts job !! contactIndex with
      | None => job
      | Some contact =>
          withContacts
            (<[contactIndex := contactWithStatus now newStatus contact]>
               (jp_referralContacts job))
            later job
      end
  end.

Definition removeContact (now : string) (job : JobPosting)
    (contactId : string) : JobPosting :=
  withContacts
    (List.filter (fun c => negb (contactHasId contactId c))
                 (jp_referralContacts job))
    now job.

Definition getContact (job : JobPosting) (contactId : string)
  : option ReferralContact :=
  List.find (contactHasId contactId) (jp_referralContacts job).

(** ** Update rows ([types/supabase.ts], [utils/jobTransformers.ts]) *)

(** A column that is present carries [Some] of its value. *)
Record DbJobPostingUpdate := mkDbJobPostingUpdate {
  du_job_id : option (option string);
  du_job_title : option string;
  du_company : option string;
  du_location : option string;
  du_description : option string;
  du_linkedin_url : option (option string);
  du_application_link : option (option string);
  du_application_requirements : option (option string);
  du_application_deadline : option (option string);
  du_referral_message : option string;
  du_referral_outreach_status : option string;
  du_notes : option string;
  du_status : option string;
  du_referral_contacts : option (list ReferralContact);
  du_date_applied : option (option string);
  du_last_updated : option string
}.

(** [jobUpdatesToDbUpdate]: each [if (updates.x !== undefined)] copies a
    present property; [last_updated] is set last, to the clock reading.
    A present [Some None] is the value null, which the guard lets through.
    A property explicitly set to [undefined], which the guard would skip,
    has no encoding of its own in [JobUpdates]; statements about this
    function that depend on the difference exclude nullish values. *)
Definition jobUpdatesToDbUpdate (now : string) (updates : JobUpdates)
  : DbJobPostingUpdate :=
  {| du_job_id := up_jobId updates;
     du_job_title := up_jobTitle updates;
     du_company := up_company updates;
     du_location := up_location updates;
     du_description := up_description updates;
     du_linkedin_url := up_linkedInUrl updates;
     du_application_link := up_applicationLink updates;
     du_application_requirements := up_applicationRequirements updates;
     du_application_deadline := up_applicationDeadline updates;
     du_referral_message := up_referralMessage updates;
     du_referral_outreach_status := up_referralOutreachStatus updates;
     du_notes := up_notes updates;
     du_status := up_status updates;
     du_referral_contacts := up_referralContacts updates;
     du_date_applied := up_dateApplied updates;
     du_last_updated := Some now |}.

(** The row the store hands back for an update of [row]: a column the
    update names takes the given value, every other column keeps its own
    (the relational store's [UPDATE ... SET]). *)
Definition updatedRow (dbUpdate : DbJobPostingUpdate) (row : DbJobPostingRow)
  : DbJobPostingRow :=
  {| row_id := row_id row;
     row_user_id := row_user_id row;
     row_job_id := default (row_job_id row) (du_job_id dbUpdate);
     row_job_title := default (row_job_title row) (du_job_title dbUpdate);
     row_company := default (row_company row) (du_company dbUpdate);
     row_location := default (row_location row) (du_location dbUpdate);
     row_description :=
       default (row_description row) (du_description dbUpdate);
     row_linkedin_url :=
       default (row_linkedin_url row) (du_linkedin_url dbUpdate);
     row_application_link :=
       default (row_application_link row) (du_application_link dbUpdate);
     row_application_requirements :=
       default (row_application_requirements row)
               (du_application_requirements dbUpdate);
     row_application_deadline :=
       default (row_application_deadline row)
               (du_application_deadline dbUpdate);
     row_referral_message :=
       default (row_referral_message row) (du_referral_message dbUpdate);
     row_referral_outreach_status :=
       default (row_referral_outreach_status row)
               (du_referral_outreach_status dbUpdate);
     row_notes := default (row_notes row) (du_notes dbUpdate);
     row_status := default (row_status row) (du_status dbUpdate);
     row_referral_contacts :=
       match du_referral_contacts dbUpdate with
       | Some contacts => Some contacts
       | None => row_referral_contacts row
       end;
     row_date_added := row_date_added row;
     row_date_applied :=
       default (row_date_applied row) (du_date_applied dbUpdate);
     row_last_updated :=
       default (row_last_updated row) (du_last_updated dbUpdate) |}.

(** ** Remote backend, the other operations
       ([services/SupabaseStorageService.ts]) *)

(** What awaiting a query gives: [{ data, error: null }], an [error] with
    its code and message, or a rejection. *)
Inductive QueryReply (A : Type) :=
| QueryData (data : A)
| QueryError (code message : string)
| QueryRejected (e : Thrown).

Arguments QueryData {A} data.
Arguments QueryError {A} code message.
Arguments QueryRejected {A} e.

(** The queries the backend sends, each with the filters it chains:
    [.select().eq('id', id).eq('user_id', userId).single()],
    [.select().eq('user_id', userId).order('date_added', ...)],
    [.update(dbUpdate).eq('id', id).eq('user_id', userId).select().single()]
    and [.delete().eq('id', id).eq('user_id', userId)]. *)
Class RemoteQueries (Remote : Type) := {
  selectRow : string -> string -> Remote
              -> QueryReply DbJobPostingRow * Remote;
  selectRows : string -> Remote
               -> QueryReply (option (list DbJobPostingRow)) * Remote;
  updateRow : DbJobPostingUpdate -> string -> string -> Remote
              -> QueryReply DbJobPostingRow * Remote;
  deleteRow : string -> string -> Remote -> QueryReply unit * Remote
}.

Section RemoteBackend.

Context `{RemoteQueries Remote}.

Definition supabaseGetJob (userId id : string) (remote : Remote)
  : (Thrown + option JobPosting) * Remote :=
  match selectRow id userId remote with
  | (QueryError code message, remote1) =>
      if String.eqb code "PGRST116" then (inr None, remote1)
      else (inl (ErrorObject ("Failed to get job: " +:+ message)), remote1)
  | (QueryData data, remote1) => (inr (Some (dbRowToJobPosting data)), remote1)
  | (QueryRejected e, remote1) => (inl e, remote1)
  end.

Definition supabaseGetAllJobs (userId : string) (remote : Remote)
  : (Thrown + list JobPosting) * Remote :=
  match selectRows userId remote with
  | (QueryError code message, remote1) =>
      (inl (ErrorObject ("Failed to get jobs: " +:+ message)), remote1)
  | (QueryData data, remote1) =>
      (inr (map dbRowToJobPosting (default [] data)), remote1)
  | (QueryRejected e, remote1) => (inl e, remote1)
  end.

Definition supabaseUpdateJob (now userId id : string) (updates : JobUpdates)
    (remote : Remote) : (Thrown + option JobPosting) * Remote :=
  let dbUpdate := jobUpdatesToDbUpdate now updates in
  match updateRow dbUpdate id userId remote with
  | (QueryError code message, remote1) =>
      if String.eqb code "PGRST116" then (inr None, remote1)
      else (inl (ErrorObject ("Failed to update job: " +:+ message)), remote1)
  | (QueryData data, remote1) => (inr (Some (dbRowToJobPosting data)), remote1)
  | (QueryRejected e, remote1) => (inl e, remote1)
  end.

Definition supabaseDeleteJob (userId id : string) (remote : Remote)
  : (Thrown + bool) * Remote :=
  match deleteRow id userId remote with
  | (QueryError code message, remote1) =>
      (inl (ErrorObject ("Failed to delete job: " +:+ message)), remote1)
  | (QueryData _, remote1) => (inr true, remote1)
  | (QueryRejected e, remote1) => (inl e, remote1)
  end.

End RemoteBackend.

(** ** Caching selector ([services/StorageServiceFactory.ts]) *)

(** The tests compare services by identity; an instance is a backend
    together with the serial number of its construction. *)
Record ServiceInstance := mkServiceInstance {
  si_serial : nat;
  si_backend : StorageBackend
}.

Record StorageServiceFactory := mkStorageServiceFactory {
  currentService : option ServiceInstance;
  currentUserId : option string
}.

(** [new StorageServiceFactory()] *)
Definition newFactory : StorageServiceFactory :=
  mkStorageServiceFactory None None.

(** [a === b] on [string | null]. *)
Definition sameUserId (a b : option string) : bool :=
  match a, b with
  | Some x, Some y => String.eqb x y
  | None, None => true
  | _, _ => false
  end.

(** [getService]; [constructed] counts the instances constructed so far. *)
Definition getService (userId : option string)
    (factory : StorageServiceFactory) (constructed : nat)
  : ServiceInstance * StorageServiceFactory * nat :=
  match currentService factory with
  | Some service =>
      if sameUserId (currentUserId factory) userId
      then (service, factory, constructed)
      else
        let created := mkServiceInstance constructed (createStorageService userId) in
        (created, mkStorageServiceFactory (Some created) userId, S constructed)
  | None =>
      let created := mkServiceInstance constructed (createStorageService userId) in
      (created, mkStorageServiceFactory (Some created) userId, S constructed)
  end.

Definition clearCache (factory : StorageServiceFactory)
  : StorageServiceFactory :=
  mkStorageServiceFactory None None.

(** A call on the factory, and a run of calls from a given state; the run
    returns the instances handed out, oldest first. *)
Inductive FactoryCall :=
| GetService (userId : option string)
| ClearCache.

Fixpoint runFactory (calls : list FactoryCall)
    (factory : StorageServiceFactory) (constructed : nat)
  : list ServiceInstance * StorageServiceFactory * nat :=
  match calls with
  | [] => ([], factory, constructed)
  | GetService userId :: rest =>
      let '(service, factory1, constructed1) :=
        getService userId factory constructed in
      let '(handed, factory2, constructed2) :=
        runFactory rest factory1 constructed1 in
      (service :: handed, factory2, constructed2)
  | ClearCache :: rest => runFactory rest (clearCache factory) constructed
  end.

(** ** Probes of the migration service ([services/MigrationService.ts]) *)

Section MigrationProbes.

Context `{Runtime}.

Definition hasLocalData (ls : LocalStorage) : bool * LocalStorage :=
  let '(jobs, ls1) := getAllJobs ls in
  (negb (length jobs =? 0)%nat, ls1).

Definition getLocalJobCount (ls : LocalStorage) : nat * LocalStorage :=
  let '(jobs, ls1) := getAllJobs ls in
  (length jobs, ls1).

(** [a] was added no earlier than [b]: both dates are valid and [b]'s is
    not after [a]'s. *)
Definition addedNoEarlier (a b : JobPosting) : Prop :=
  match getTime (jp_dateAdded a), getTime (jp_dateAdded b) with
  | Some ta, Some tb => (tb <= ta)%Z
  | _, _ => False
  end.

Definition validDateAdded (job : JobPosting) : Prop :=
  is_Some (getTime (jp_dateAdded job)).

End MigrationProbes.

(** A relational store that answers every insert with the inserted row. *)
Definition echoInsert (dbInsert : DbJobPostingInsert) (table : list DbJobPostingRow)
  : StoreReply * list DbJobPostingRow :=
  let row := insertedRow ("row-" +:+ ins_job_title dbInsert)
                         "2025-03-01T09:30:00.000Z"
                         "2025-03-01T09:30:00.000Z" dbInsert in
  (ReplyData row, (table ++ [row])%list).

Definition echoStore : RemoteStore (list DbJobPostingRow) :=
  {| insertRow := echoInsert |}.

(** ** Vocabulary for the further properties *)

(** The collection the store holds under the backend's key: the parsed
    array, or nothing when the key is missing or holds other text. *)
Definition storedJobs (ls : LocalStorage) : list JobPosting :=
  match ls_items ls !! STORAGE_KEY with
  | Some (JobsJson jobs) => jobs
  | _ => []
  end.

Definition jobIds (jobs : list JobPosting) : list string := map jp_id jobs.

Section LocalBackendVocabulary.

Context `{Runtime}.

(** The order [getAllJobs] establishes between neighbours: the comparator
    does not ask to swap them. *)
Definition inDisplayOrder (a b : JobPosting) : Prop :=
  (compareByDateAdded a b <= 0)%Z.

End LocalBackendVocabulary.

(** The identities asked of the factory by a run of calls, in order. *)
Definition requestedIds (calls : list FactoryCall) : list (option string) :=
  flat_map (fun call => match call with
                        | GetService userId => [userId]
                        | ClearCache => []
                        end) calls.

(** A run of status changes of one contact. *)
Record StatusChange := mkStatusChange {
  sc_now : string;
  sc_later : string;
  sc_status : string
}.

Definition applyStatusChanges (contactId : string)
    (changes : list StatusChange) (job : JobPosting) : JobPosting :=
  fold_left (fun j change =>
               updateContactStatus (sc_now change) (sc_later change) j
                                   contactId (sc_status change))
            changes job.

Definition jobWithContacts : JobPosting :=
  withContacts
    [mkReferralContact "c-1" "Ada" "ada@example.com" None "Not Contacted";
     mkReferralContact "c-2" "Bob" "linkedin" (Some "2024-02-02T00:00:00.000Z")
                       "Contacted"]
    "2024-02-02T00:00:00.000Z" sampleJob.

Definition sampleRow : DbJobPostingRow :=
  insertedRow "row-1" "2024-01-01T00:00:00.000Z" "2024-01-01T00:00:00.000Z"
              (jobPostingToDbInsert sampleJobData "user-42").

(** The two job-level enumerations of a record hold legal values. *)
Definition jobLevelLegal (j : JobPosting) : Prop :=
  jp_status j ∈ ApplicationStatuses /\
  jp_referralOutreachStatus j ∈ ReferralOutreachStatuses.

(** The statuses an update object names are legal values. *)
Definition namesLegalStatuses (u : JobUpdates) : Prop :=
  (forall s, up_status u = Some s -> s ∈ ApplicationStatuses) /\
  (forall s, up_referralOutreachStatus u = Some s ->
             s ∈ ReferralOutreachStatuses).

(** Every property the update object names has a value: none is null (or
    undefined). *)
Definition namesOnlyValues (u : JobUpdates) : Prop :=
  up_jobId u <> Some None /\
  up_linkedInUrl u <> Some None /\
  up_applicationLink u <> Some None /\
  up_applicationRequirements u <> Some None /\
  up_applicationDeadline u <> Some None /\
  up_dateApplied u <> Some None.

(** The store answers every insert with the inserted row. *)
Definition answersWithInsertedRow `{RemoteStore Remote} : Prop :=
  forall dbInsert remote,
    exists rowId dateAdded lastUpdated,
      fst (insertRow dbInsert remote)
      = ReplyData (insertedRow rowId dateAdded lastUpdated dbInsert).

(** The [deleteJob] callback of the context, over the Local Backend: the
    record leaves the application state only when the backend answers true;
    otherwise an error is set. *)
Definition contextDeleteJob `{Runtime} (now id : string) (state : AppState)
    (ls : LocalStorage) : AppState * LocalStorage :=
  let '(removed, ls1) := deleteJob id ls in
  if removed
  then (appReducer now state (DELETE_JOB id), ls1)
  else (appReducer now state
          (SET_ERROR (Some "Failed to delete job. Please try again.")), ls1).

Definition sampleState : AppState :=
  mkAppState [sampleJob; olderJob] EmptyString "All" (Some "id-1") false false
             None.

(** ** Vocabulary for applied-at *)

(** A record that has not been applied to: no applied-at, and a status
    other than "Applied". *)
Definition notYetApplied (job : JobPosting) : Prop :=
  jp_dateApplied job = None /\ jp_status job <> "Applied".

(** A run of UPDATE_JOB actions for one id through the reducer. *)
Definition reduceUpdates (id : string) (dispatches : list Dispatch)
    (state : AppState) : AppState :=
  fold_left (fun st d => appReducer (dp_now d) st (UPDATE_JOB id (dp_updates d)))
            dispatches state.

(** The record the store holds for an id: the first record of the stored
    array with that id (the only one when the stored ids are distinct). *)
Definition heldRecord (id : string) (ls : LocalStorage) : option JobPosting :=
  List.find (hasId id) (storedJobs ls).

Section AppliedAtVocabulary.

Context `{Runtime}.

(** A run of calls of the [updateJob] callback for one id, over the Local
    Backend. *)
Definition persistUpdates (id : string) (calls : list UpdateCall)
    (ls : LocalStorage) : LocalStorage :=
  fold_left (fun store call =>
               persistUpdate (uc_now call) (uc_later call) id
                             (uc_updates call) store)
            calls ls.

End AppliedAtVocabulary.

(** * Properties *)

(** ** Field transformer *)

Lemma includes_spec (xs : list string) (s : string) :
  includes xs s = true <-> s ∈ xs.
Proof.
  unfold includes. rewrite existsb_exists. split.
  - intros (x & Hin & Heq). apply String.eqb_eq in Heq. subst x.
    by apply list_elem_of_In.
  - intros Hin. exists s. split; [by apply list_elem_of_In |].
    apply String.eqb_refl.
Qed.

Lemma includes_decide (xs : list string) (s : string) :
  includes xs s = bool_decide (s ∈ xs).
Proof.
  destruct (includes xs s) eqn:E.
  - symmetry. apply bool_decide_eq_true. by apply includes_spec.
  - symmetry. apply bool_decide_eq_false. intros Hin.
    apply includes_spec in Hin. congruence.
Qed.

Lemma truthy_spec (s : string) : truthy s = true <-> s <> EmptyString.
Proof.
  unfold truthy. rewrite negb_true_iff. apply String.eqb_neq.
Qed.

(** C1.  Round trip: a creation payload [p] converted to an insert row for
    owner [u], completed by the store with a generated identifier and fresh
    timestamps, and converted back, gives a record that agrees with [p] on
    every payload field; its identifier and timestamps are the freshly
    assigned ones. *)
Theorem roundtrip_insert_row (p : JobData) (u rowId dateAdded lastUpdated : string) :
  wellTypedJobData p ->
  let row := insertedRow rowId dateAdded lastUpdated (jobPostingToDbInsert p u) in
  let j := dbRowToJobPosting row in
  jobDataOf j = p /\
  row_user_id row = u /\
  jp_id j = rowId /\ jp_dateAdded j = dateAdded /\ jp_lastUpdated j = lastUpdated.
Proof.
  intros [Hs Ho]. apply includes_spec in Hs, Ho.
  destruct p; simpl in *.
  unfold jobDataOf, dbRowToJobPosting; simpl.
  unfold isValidApplicationStatus, isValidReferralOutreachStatus.
  rewrite Hs, Ho. repeat split; reflexivity.
Qed.

(** The typing hypothesis of the round trip is exactly what it needs: on a
    payload whose status is outside the union the record read back carries
    the default instead. *)
Lemma roundtrip_needs_typing (p : JobData) (u rowId dateAdded lastUpdated : string) :
  jobDataOf (dbRowToJobPosting
               (insertedRow rowId dateAdded lastUpdated (jobPostingToDbInsert p u))) = p ->
  wellTypedJobData p.
Proof.
  intros H. unfold wellTypedJobData.
  assert (Hs := f_equal jd_status H). assert (Ho := f_equal jd_referralOutreachStatus H).
  simpl in Hs, Ho. split.
  - destruct (isValidApplicationStatus (jd_status p)) eqn:E.
    + by apply includes_spec.
    + rewrite <- Hs. set_solver.
  - destruct (isValidReferralOutreachStatus (jd_referralOutreachStatus p)) eqn:E.
    + by apply includes_spec.
    + rewrite <- Ho. set_solver.
Qed.

Lemma sampleJobData_wellTyped : wellTypedJobData sampleJobData.
Proof. split; simpl; set_solver. Defined.

Lemma roundtrip_insert_row_witness :
  wellTypedJobData sampleJobData /\
  jobDataOf (dbRowToJobPosting
               (insertedRow "row-1" "2026-01-01T00:00:00.000Z" "2026-01-01T00:00:00.000Z"
                            (jobPostingToDbInsert sampleJobData "user-42")))
  = sampleJobData.
Proof.
  split; [exact sampleJobData_wellTyped |].
  exact (proj1 (roundtrip_insert_row sampleJobData "user-42" "row-1"
                  "2026-01-01T00:00:00.000Z" "2026-01-01T00:00:00.000Z"
                  sampleJobData_wellTyped)).
Defined.

(** C6.  Reading a row substitutes the defaults: the application-status is
    the stored text when that is one of the five legal values and "Saved"
    otherwise, the outreach-status is the stored text when legal and
    "Have to Find" otherwise, and a missing contact list reads as the empty
    list.  The function is total: an illegal stored value never makes it
    fail. *)
Theorem dbRowToJobPosting_defaults (row : DbJobPostingRow) :
  jp_status (dbRowToJobPosting row)
  = (if decide (row_status row ∈ ApplicationStatuses)
     then row_status row else "Saved") /\
  jp_referralOutreachStatus (dbRowToJobPosting row)
  = (if decide (row_referral_outreach_status row ∈ ReferralOutreachStatuses)
     then row_referral_outreach_status row else "Have to Find") /\
  jp_referralContacts (dbRowToJobPosting row)
  = match row_referral_contacts row with
    | None => []
    | Some contacts => contacts
    end.
Proof.
  simpl. unfold isValidApplicationStatus, isValidReferralOutreachStatus.
  rewrite !includes_decide.
  repeat split; try done; case_decide;
    (by rewrite bool_decide_eq_true_2) || (by rewrite bool_decide_eq_false_2).
Qed.

(** C7, as stated, fails: a row whose contact carries a referral-status
    outside the enumeration is read into a record that still carries it. *)
Lemma contact_status_not_revalidated :
  ~ (forall row, enumerationsLegal (dbRowToJobPosting row) = true).
Proof.
  intros H. specialize (H rowWithStaleContact). vm_compute in H. discriminate.
Qed.

(** C7, amended.  The two job-level enumerations of the record read from any
    row are legal; the contact list is handed over as stored, so the
    referral-status of each contact is whatever the row holds. *)
Theorem dbRowToJobPosting_enumerations (row : DbJobPostingRow) :
  jp_status (dbRowToJobPosting row) ∈ ApplicationStatuses /\
  jp_referralOutreachStatus (dbRowToJobPosting row) ∈ ReferralOutreachStatuses /\
  map rc_status (jp_referralContacts (dbRowToJobPosting row))
  = map rc_status (default [] (row_referral_contacts row)).
Proof.
  simpl. split; [| split].
  - destruct (isValidApplicationStatus (row_status row)) eqn:E.
    + by apply includes_spec.
    + set_solver.
  - destruct (isValidReferralOutreachStatus (row_referral_outreach_status row)) eqn:E.
    + by apply includes_spec.
    + set_solver.
  - by destruct (row_referral_contacts row).
Qed.

(** ** Backend selector *)

(** C9, as stated, fails: the empty string is a non-null owner identity and
    the selector answers it with the Local Backend. *)
Lemma empty_identity_selects_local :
  ~ (forall s : option string,
       match s with
       | Some u => createStorageService s = SupabaseStorageService u
       | None => createStorageService s = LocalStorageServiceAsync
       end).
Proof.
  intros H. specialize (H (Some EmptyString)). vm_compute in H. discriminate.
Qed.

(** C9, amended.  The selector returns a Remote Backend bound to [s] exactly
    when [s] is a non-null, non-empty owner identity, and the Local Backend
    when [s] is null or the empty string; a Remote Backend it returns always
    reports itself available. *)
Theorem createStorageService_selects (s : option string) :
  createStorageService s
  = match s with
    | Some u =>
        if decide (u = EmptyString) then LocalStorageServiceAsync
        else SupabaseStorageService u
    | None => LocalStorageServiceAsync
    end
  /\ match createStorageService s with
     | SupabaseStorageService u => s = Some u /\ supabaseIsAvailable u = true
     | LocalStorageServiceAsync => s = None \/ s = Some EmptyString
     end.
Proof.
  destruct s as [u |]; simpl; [| by auto].
  unfold supabaseIsAvailable.
  destruct (truthy u) eqn:E.
  - assert (u <> EmptyString) by by apply truthy_spec.
    case_decide; [done |]. by auto.
  - assert (u = EmptyString).
    { destruct (decide (u = EmptyString)) as [-> | Hne]; [done |].
      apply truthy_spec in Hne. congruence. }
    subst. case_decide; [| done]. by auto.
Qed.

(** ** Local backend *)

Lemma STORAGE_KEY_not_testKey : testKey <> STORAGE_KEY.
Proof. discriminate. Qed.

Lemma findIndex_lookup {A} (p : A -> bool) (xs : list A) (i : nat) :
  findIndex p xs = Some i -> exists x, xs !! i = Some x /\ List.find p xs = Some x.
Proof.
  revert i. induction xs as [| y ys IH]; intros i; simpl; [done |].
  destruct (p y) eqn:E.
  - intros [= <-]. by exists y.
  - destruct (findIndex p ys) as [k |]; simpl; [| done].
    intros [= <-]. destruct (IH k eq_refl) as (x & Hx & Hf). by exists x.
Qed.

Lemma findIndex_None {A} (p : A -> bool) (xs : list A) :
  findIndex p xs = None -> forall x, x ∈ xs -> p x = false.
Proof.
  induction xs as [| y ys IH]; simpl; intros H x Hx.
  - by apply elem_of_nil in Hx.
  - destruct (p y) eqn:E; [done |].
    destruct (findIndex p ys); [done |].
    apply elem_of_cons in Hx as [-> | Hx]; [done | by apply IH].
Qed.

Lemma find_unique {A} (p : A -> bool) (xs : list A) (x : A) :
  x ∈ xs -> p x = true -> (forall y, y ∈ xs -> p y = true -> y = x) ->
  List.find p xs = Some x.
Proof.
  induction xs as [| y ys IH]; intros Hin Hp Huniq.
  - by apply elem_of_nil in Hin.
  - simpl. destruct (p y) eqn:E.
    + f_equal. apply Huniq; [by left | done].
    + apply IH; [| done |].
      * apply elem_of_cons in Hin as [-> | Hin]; [congruence | done].
      * intros z Hz. apply Huniq. by right.
Qed.

Lemma find_elem_of {A} (p : A -> bool) (xs : list A) (x : A) :
  List.find p xs = Some x -> x ∈ xs /\ p x = true.
Proof.
  intros Hf. apply find_some in Hf as [Hin Hp].
  split; [by apply list_elem_of_In | done].
Qed.

Lemma filter_length_existsb {A} (p : A -> bool) (xs : list A) :
  (length (List.filter (fun x => negb (p x)) xs) =? length xs)%nat
  = negb (existsb p xs).
Proof.
  assert (Hle : forall l : list A,
             (length (List.filter (fun x => negb (p x)) l) <= length l)%nat).
  { intros l. induction l as [| y ys IH]; simpl; [lia |].
    destruct (p y); simpl; lia. }
  induction xs as [| y ys IH]; simpl; [done |].
  destruct (p y); simpl.
  - apply Nat.eqb_neq. specialize (Hle ys). lia.
  - exact IH.
Qed.

Section LocalBackendProperties.

Context `{Runtime}.

(** The availability probe writes and removes its own key only. *)
Lemma isStorageAvailable_frame (ls : LocalStorage) :
  ls_denied (snd (isStorageAvailable ls)) = ls_denied ls /\
  forall key, key <> testKey ->
    ls_items (snd (isStorageAvailable ls)) !! key = ls_items ls !! key.
Proof.
  unfold isStorageAvailable, setItem, removeItem.
  destruct (ls_denied ls) eqn:Hd; simpl; [done |].
  destruct (quotaAllows _ _ _); simpl; [| done].
  split; [done |]. intros key Hne.
  rewrite lookup_delete_ne by done. by rewrite lookup_insert_ne.
Qed.

Lemma isStorageAvailable_true (ls : LocalStorage) :
  fst (isStorageAvailable ls) = true ->
  ls_denied (snd (isStorageAvailable ls)) = false.
Proof.
  unfold isStorageAvailable, setItem, removeItem.
  destruct (ls_denied ls) eqn:Hd; simpl; [done |].
  by destruct (quotaAllows _ _ _).
Qed.

Lemma isStorageAvailable_denied (ls : LocalStorage) :
  ls_denied ls = true -> isStorageAvailable ls = (false, ls).
Proof.
  intros Hd. unfold isStorageAvailable, setItem. by rewrite Hd.
Qed.

(** With no stale probe key in the store, the probe leaves the store
    exactly as it found it. *)
Lemma isStorageAvailable_restores (ls : LocalStorage) :
  ls_items ls !! testKey = None -> snd (isStorageAvailable ls) = ls.
Proof.
  intros Hprobe. unfold isStorageAvailable, setItem, removeItem.
  destruct ls as [denied items]; simpl in *.
  destruct denied; simpl; [done |].
  destruct (quotaAllows _ _ _); simpl; [| done].
  f_equal. rewrite delete_insert_eq. by apply delete_id.
Qed.

Lemma insertSorted_perm (x : JobPosting) (l : list JobPosting) :
  insertSorted x l ≡ₚ x :: l.
Proof.
  induction l as [| y ys IH]; simpl; [done |].
  destruct (_ <=? _)%Z; [done |].
  rewrite IH. apply perm_swap.
Qed.

Lemma sortNewestFirst_perm (l : list JobPosting) : sortNewestFirst l ≡ₚ l.
Proof.
  induction l as [| y ys IH]; simpl; [done |].
  rewrite insertSorted_perm. by rewrite IH.
Qed.

(** What [getAllJobs] reads and what it leaves behind. *)
Lemma getAllJobs_unfold (ls : LocalStorage) :
  getAllJobs ls
  = (if fst (isStorageAvailable ls)
     then match ls_items ls !! STORAGE_KEY with
          | Some (JobsJson jobs) => sortNewestFirst jobs
          | _ => []
          end
     else [],
     snd (isStorageAvailable ls)).
Proof.
  unfold getAllJobs.
  pose proof (isStorageAvailable_frame ls) as [_ Hframe].
  pose proof (isStorageAvailable_true ls) as Hden.
  destruct (isStorageAvailable ls) as [[|] ls1]; simpl in *; [| done].
  unfold getItem. rewrite Hden by done.
  rewrite Hframe by (symmetry; apply STORAGE_KEY_not_testKey).
  by destruct (ls_items ls !! STORAGE_KEY) as [[|] |].
Qed.

Lemma saveAllJobs_true (jobs : list JobPosting) (ls : LocalStorage) :
  fst (saveAllJobs jobs ls) = true ->
  fst (isStorageAvailable ls) = true /\
  ls_denied (snd (saveAllJobs jobs ls)) = false /\
  ls_items (snd (saveAllJobs jobs ls)) !! STORAGE_KEY = Some (JobsJson jobs).
Proof.
  unfold saveAllJobs.
  pose proof (isStorageAvailable_true ls) as Hden.
  destruct (isStorageAvailable ls) as [[|] ls1]; simpl in *; [| done].
  unfold setItem. rewrite Hden by done.
  destruct (quotaAllows _ _ _); simpl; [| done].
  intros _. by rewrite lookup_insert_eq.
Qed.


(** No operation of the backend touches a key other than its own and the
    probe's. *)
Lemma getAllJobs_frame (ls : LocalStorage) :
  ls_denied (snd (getAllJobs ls)) = ls_denied ls /\
  forall key, key <> testKey ->
    ls_items (snd (getAllJobs ls)) !! key = ls_items ls !! key.
Proof. rewrite getAllJobs_unfold. apply isStorageAvailable_frame. Qed.

End LocalBackendProperties.

Section LocalBackendClaims.

Context `{Runtime}.

(** C10.  [deleteJob] answers true exactly when a record with the given id
    is in the readable collection and the write of the remaining
    collection succeeds, and then the store holds the remaining
    collection; when the store is unavailable it answers false whatever
    the store holds.  So false covers both an absent id and a present one
    that was not durably removed. *)
Theorem deleteJob_result (id : string) (ls : LocalStorage) :
  let jobs := fst (getAllJobs ls) in
  let remaining := List.filter (fun job => negb (hasId id job)) jobs in
  fst (deleteJob id ls)
  = existsb (hasId id) jobs
    && fst (saveAllJobs remaining (snd (getAllJobs ls)))
  /\ (fst (isStorageAvailable ls) = false -> fst (deleteJob id ls) = false)
  /\ (fst (deleteJob id ls) = true ->
      ls_items (snd (deleteJob id ls)) !! STORAGE_KEY
      = Some (JobsJson remaining)).
Proof.
  intros jobs remaining.
  assert (Heq : fst (deleteJob id ls)
                = existsb (hasId id) jobs
                  && fst (saveAllJobs remaining (snd (getAllJobs ls)))).
  { subst jobs remaining. unfold deleteJob.
    destruct (getAllJobs ls) as [jobs ls1]; simpl.
    rewrite filter_length_existsb.
    by destruct (existsb (hasId id) jobs). }
  split; [exact Heq |]. split.
  - intros Hun. rewrite Heq. subst jobs.
    rewrite getAllJobs_unfold. simpl. by rewrite Hun.
  - intros Htrue. rewrite Heq in Htrue.
    apply andb_true_iff in Htrue as [Hex Hsave].
    subst jobs remaining. unfold deleteJob.
    destruct (getAllJobs ls) as [jobs ls1]; simpl in *.
    rewrite filter_length_existsb, Hex. simpl.
    by apply saveAllJobs_true.
Qed.

(** C5, amended.  For a stored record with the given id and any update
    object, [updateJob] returns a record with the same identifier and
    created-at (whatever the update object says about them), with every
    field the update does not name at its earlier value and every field it
    names at the given one, and with updated-at set to the clock reading
    taken at the update, whatever the earlier updated-at was; it returns
    null exactly when no readable record has the id. *)
Theorem updateJob_preserves (now id : string) (u : JobUpdates)
    (ls : LocalStorage) :
  match fst (updateJob now id u ls) with
  | Some new =>
      exists old,
        List.find (hasId id) (fst (getAllJobs ls)) = Some old /\
        jp_id new = jp_id old /\ jp_id new = id /\
        jp_dateAdded new = jp_dateAdded old /\
        keepsUnnamedFields u old new /\
        takesNamedFields u new /\
        jp_lastUpdated new = now
  | None => forall j, j ∈ fst (getAllJobs ls) -> jp_id j <> id
  end.
Proof.
  unfold updateJob. destruct (getAllJobs ls) as [jobs ls1]; simpl.
  destruct (findIndex (hasId id) jobs) as [index |] eqn:Hidx.
  - destruct (findIndex_lookup _ _ _ Hidx) as (old & Hlook & Hfind).
    rewrite Hlook.
    destruct (saveAllJobs _ ls1) as [written ls2]; simpl.
    exists old. destruct (find_elem_of _ _ _ Hfind) as [Hin Hid].
    unfold hasId in Hid. apply String.eqb_eq in Hid.
    split; [done |]. split; [done |]. split; [done |]. split; [done |].
    split; [| split; [| done]].
    + unfold keepsUnnamedFields; simpl.
      repeat split; intros ->; reflexivity.
    + unfold takesNamedFields; simpl.
      repeat split; intros v ->; reflexivity.
  - simpl. intros j Hj Hid.
    pose proof (findIndex_None _ _ Hidx j Hj) as Hno.
    unfold hasId in Hno. apply String.eqb_neq in Hno. done.
Qed.

End LocalBackendClaims.


Lemma elem_of_computed {A} (P : A -> Prop) (l : list A) :
  Forall P l -> forall x, x ∈ l -> P x.
Proof. intros HF x Hx. by eapply Forall_forall in HF. Qed.

(** Evaluate the list a [Forall] ranges over, and nothing else. *)
Ltac evaluate_list :=
  match goal with
  | |- Forall ?P ?l => let l' := eval vm_compute in l in change (Forall P l')
  end.

Lemma deleteJob_result_witness :
  fst (isStorageAvailable (H := roomyBrowser) deniedStorage) = false /\
  fst (deleteJob (H := roomyBrowser) "id-1" deniedStorage) = false /\
  fst (deleteJob (H := roomyBrowser) "id-1" (storageWith [olderJob; sampleJob]))
  = true /\
  ls_items (snd (deleteJob (H := roomyBrowser) "id-1"
                           (storageWith [olderJob; sampleJob]))) !! STORAGE_KEY
  = Some (JobsJson [olderJob]).
Proof.
  split; [reflexivity |]. split.
  - apply (deleteJob_result (H := roomyBrowser) "id-1" deniedStorage).
    reflexivity.
  - split; [vm_compute; reflexivity |].
    apply (deleteJob_result (H := roomyBrowser) "id-1"
                            (storageWith [olderJob; sampleJob])).
    vm_compute; reflexivity.
Defined.

(** A present record that is not durably removed, and an absent one, are
    both answered with false. *)
Example deleteJob_false_twice :
  fst (deleteJob (H := fullBrowser) "id-1" (storageWith [sampleJob])) = false /\
  ls_items (snd (deleteJob (H := fullBrowser) "id-1" (storageWith [sampleJob])))
    !! STORAGE_KEY = Some (JobsJson [sampleJob]) /\
  fst (deleteJob (H := fullBrowser) "id-1" (storageWith [olderJob])) = false.
Proof. vm_compute. repeat split; reflexivity. Qed.

Lemma updateJob_preserves_witness :
  let ls := storageWith [olderJob; sampleJob] in
  let now := "2025-03-01T09:30:00.000Z" in
  exists new,
    fst (updateJob (H := roomyBrowser) now "id-1"
                   (updatesWithLastUpdated "1999-01-01T00:00:00.000Z"
                      (statusUpdate "Interview")) ls) = Some new /\
    jp_id new = "id-1" /\ jp_status new = "Interview" /\
    jp_jobTitle new = "Software Engineer" /\ jp_lastUpdated new = now.
Proof.
  intros ls now.
  pose proof (updateJob_preserves (H := roomyBrowser) now "id-1"
                (updatesWithLastUpdated "1999-01-01T00:00:00.000Z"
                   (statusUpdate "Interview")) ls) as Hupd.
  destruct (fst (updateJob (H := roomyBrowser) now "id-1" _ ls)) as [new |] eqn:E.
  - exists new. destruct Hupd as (old & Hold & _ & Hid & _ & Hkeep & Htake & Hlast).
    split; [reflexivity |]. split; [exact Hid |].
    split; [apply Htake; reflexivity |].
    split; [| exact Hlast].
    destruct Hkeep as (_ & Htitle & _). rewrite Htitle by reflexivity.
    vm_compute in Hold. by injection Hold as <-.
  - vm_compute in E. discriminate.
Defined.

(** C5, as stated, fails: the clock is read, not compared.  With a clock
    reading earlier than the stored updated-at, the updated-at of the
    record returned is earlier than the one before. *)
Lemma updateJob_lastUpdated_follows_clock :
  ~ (forall (R : Runtime) (now id : string) (u : JobUpdates)
            (ls : LocalStorage),
       match fst (updateJob now id u ls) with
       | Some new =>
           exists old,
             List.find (hasId id) (fst (getAllJobs ls)) = Some old /\
             jp_id new = jp_id old /\
             jp_dateAdded new = jp_dateAdded old /\
             keepsUnnamedFields u old new /\
             notLaterThan (jp_lastUpdated old) (jp_lastUpdated new)
       | None => forall j, j ∈ fst (getAllJobs ls) -> jp_id j <> id
       end).
Proof.
  intros Hall.
  specialize (Hall roomyBrowser "2023-01-01T00:00:00.000Z" "id-1"
                   (statusUpdate "Interview") (storageWith [sampleJob])).
  destruct (fst (updateJob (H := roomyBrowser) "2023-01-01T00:00:00.000Z"
                           "id-1" (statusUpdate "Interview")
                           (storageWith [sampleJob])))
    as [new |] eqn:E.
  - vm_compute in E. injection E as <-.
    destruct Hall as (old & Hold & _ & _ & _ & Hle).
    vm_compute in Hold. injection Hold as <-.
    vm_compute in Hle. by apply Hle.
  - vm_compute in E. discriminate.
Qed.

(** ** Migration routine *)

Section MigrationClaims.

Context `{Runtime} `{RemoteStore Remote}.

Lemma saveAttempts_jobs (userId : string) (jobs : list JobPosting)
    (remote : Remote) :
  map fst (saveAttempts userId jobs remote) = jobs.
Proof.
  revert remote. induction jobs as [| job rest IH]; intros remote; simpl.
  - reflexivity.
  - destruct (supabaseSaveJob userId (migrationData job) remote)
      as [outcome remote1].
    simpl. by rewrite IH.
Qed.

(** The loop, started on any [result], adds to the counter one per save
    that returned and to the error list one message per save that threw,
    in the order of the records. *)
Lemma migrateLoop_run (userId : string) (jobs : list JobPosting)
    (result : MigrationResult) (remote : Remote) :
  let result' := fst (migrateLoop userId jobs result remote) in
  let attempts := saveAttempts userId jobs remote in
  success result' = success result /\
  totalCount result' = totalCount result /\
  migratedCount result'
  = (migratedCount result + length (List.filter saved attempts))%nat /\
  errors result' = (errors result ++ omap failureOf attempts)%list.
Proof.
  revert result remote.
  induction jobs as [| job rest IH]; intros result remote; simpl.
  - repeat split; [lia | by rewrite app_nil_r].
  - unfold migrateOne.
    destruct (supabaseSaveJob userId (migrationData job) remote)
      as [[e | record] remote1]; simpl.
    + destruct (IH (mkMigrationResult (success result) (migratedCount result)
                      (totalCount result)
                      (errors result ++ [migrationError job e])) remote1)
        as (Hs & Ht & Hm & He).
      simpl in *. repeat split; [done | done | done |].
      rewrite He. unfold failureOf at 2. simpl. by rewrite <- app_assoc.
    + destruct (IH (mkMigrationResult (success result)
                      (S (migratedCount result)) (totalCount result)
                      (errors result)) remote1)
        as (Hs & Ht & Hm & He).
      simpl in *. repeat split; [done | done | lia | done].
Qed.

Lemma filter_saved_failures (attempts : list (JobPosting * (Thrown + JobPosting))) :
  (length (List.filter saved attempts) + length (omap failureOf attempts)
   = length attempts)%nat.
Proof.
  induction attempts as [| [job [e | record]] rest IH]; [done | |];
    unfold failureOf, saved, omap in *; simpl in *; lia.
Qed.

(** C2.  For the [N] records readable from the Local Backend,
    [migrateToCloud] attempts one remote save per record, in order, and
    returns [totalCount = N], [migratedCount] the number of saves that
    raised no error, [success] true exactly when the two counts are
    equal, and one message per failed record, naming its title and
    company. *)
Theorem migrateToCloud_counts (userId : string) (ls : LocalStorage)
    (remote : Remote) :
  let localJobs := fst (getAllJobs ls) in
  let attempts := saveAttempts userId localJobs remote in
  let result := fst (fst (migrateToCloud userId ls remote)) in
  map fst attempts = localJobs /\
  totalCount result = length localJobs /\
  migratedCount result = length (List.filter saved attempts) /\
  (success result = true <-> migratedCount result = totalCount result) /\
  errors result = omap failureOf attempts /\
  (length (errors result) + migratedCount result = totalCount result)%nat /\
  Forall (fun attempt =>
            match snd attempt with
            | inl e =>
                migrationError (fst attempt) e ∈ errors result /\
                migrationError (fst attempt) e
                = "Failed to migrate job " +:+ dquote
                    +:+ jp_jobTitle (fst attempt) +:+ dquote +:+ " at "
                    +:+ jp_company (fst attempt) +:+ ": " +:+ errorMessage e
            | inr _ => True
            end) attempts.
Proof.
  intros localJobs attempts result.
  assert (Hjobs : map fst attempts = localJobs)
    by apply saveAttempts_jobs.
  assert (Hlen : length attempts = length localJobs)
    by (rewrite <- Hjobs; by rewrite length_map).
  pose proof (filter_saved_failures attempts) as Hsplit.
  assert (Hres : totalCount result = length localJobs /\
                 migratedCount result = length (List.filter saved attempts) /\
                 success result
                 = (migratedCount result =? totalCount result)%nat /\
                 errors result = omap failureOf attempts).
  { subst result attempts localJobs. unfold migrateToCloud.
    destruct (getAllJobs ls) as [jobs ls1]; simpl in *.
    destruct jobs as [| job rest] eqn:Hj; [by simpl |].
    rewrite <- Hj in *.
    replace (length jobs =? 0)%nat with false
      by (symmetry; apply Nat.eqb_neq; subst jobs; simpl; lia).
    pose proof (migrateLoop_run userId jobs
                  (mkMigrationResult false 0 (length jobs) []) remote)
      as (_ & Ht & Hm & He).
    destruct (migrateLoop userId jobs _ remote) as [result1 remote1].
    simpl in *. rewrite Ht, Hm, He. done. }
  destruct Hres as (Ht & Hm & Hs & He).
  split; [done |]. split; [done |]. split; [done |].
  split; [| split; [done | split]].
  - rewrite Hs. apply Nat.eqb_eq.
  - rewrite He, Hm, Ht. lia.
  - apply Forall_forall. intros [job [e | record]] Hin; simpl; [| done].
    split; [| reflexivity].
    rewrite He. apply list_elem_of_omap.
    exists (job, inl e). split; [done | reflexivity].
Qed.

(** C3.  A run of [migrateToCloud], whatever the remote store answers,
    leaves the stored collection of the Local Backend (and every other
    key but the availability probe's own) as it was, and when the store
    holds no stale probe key it leaves the whole store as it was, so the
    same records are read afterwards.  The collection goes away with the
    separate [clearLocalData] only. *)
Theorem migrateToCloud_keeps_local (userId : string) (ls : LocalStorage)
    (remote : Remote) :
  let ls' := snd (fst (migrateToCloud userId ls remote)) in
  ls_items ls' !! STORAGE_KEY = ls_items ls !! STORAGE_KEY /\
  ls_denied ls' = ls_denied ls /\
  (forall key, key <> testKey -> ls_items ls' !! key = ls_items ls !! key) /\
  (ls_items ls !! testKey = None ->
   ls' = ls /\ fst (getAllJobs ls') = fst (getAllJobs ls)) /\
  ls_items (clearLocalData ls') !! STORAGE_KEY
  = (if ls_denied ls then ls_items ls !! STORAGE_KEY else None).
Proof.
  intros ls'.
  assert (Hls' : ls' = snd (isStorageAvailable ls)).
  { subst ls'. unfold migrateToCloud.
    rewrite getAllJobs_unfold.
    destruct (length _ =? 0)%nat; [done |].
    by destruct (migrateLoop userId _ _ remote). }
  pose proof (isStorageAvailable_frame ls) as [Hden Hframe].
  rewrite <- Hls' in Hden, Hframe.
  assert (Hkey : ls_items ls' !! STORAGE_KEY = ls_items ls !! STORAGE_KEY).
  { apply Hframe. symmetry. apply STORAGE_KEY_not_testKey. }
  split; [done |]. split; [done |]. split; [done |]. split.
  - intros Hprobe.
    assert (Heq : ls' = ls)
      by (rewrite Hls'; by apply isStorageAvailable_restores).
    split; [done | by rewrite Heq].
  - unfold clearLocalData, removeItem. rewrite Hden.
    destruct (ls_denied ls); simpl; [done |].
    apply lookup_delete_eq.
Qed.

End MigrationClaims.

(** Three local records, two of which the remote store refuses. *)
Example migrateToCloud_partial_failure :
  let ls := storageWith [sampleJob; untitledJob; unreachableJob] in
  let run := migrateToCloud (H := roomyBrowser) (H0 := sampleStore) "user-42" ls [] in
  fst (fst run)
  = mkMigrationResult false 1 3
      ["Failed to migrate job " +:+ dquote +:+ "Analyst" +:+ dquote
         +:+ " at Unreachable Inc: Unknown error";
       "Failed to migrate job " +:+ dquote +:+ dquote
         +:+ " at Initech: Failed to save job: null value in column job_title"]
  /\ length (snd run) = 1%nat
  /\ ls_items (snd (fst run)) !! STORAGE_KEY = ls_items ls !! STORAGE_KEY.
Proof. vm_compute. repeat split; reflexivity. Qed.

Lemma migrateToCloud_keeps_local_witness :
  let ls := storageWith [olderJob; sampleJob] in
  let ls' := snd (fst (migrateToCloud (H := roomyBrowser) (H0 := sampleStore)
                                      "user-42" ls [])) in
  ls' = ls /\
  fst (getAllJobs (H := roomyBrowser) ls') = fst (getAllJobs (H := roomyBrowser) ls).
Proof.
  intros ls ls'.
  apply (migrateToCloud_keeps_local (H := roomyBrowser) (H0 := sampleStore)
                                    "user-42" ls []).
  vm_compute; reflexivity.
Defined.

(** ** Scenarios of the specification *)

(** A saved record is the only one listed, with equal created-at and
    updated-at. *)
Example scenario_save_then_list :
  let saved := saveJob (H := roomyBrowser) "2025-03-01T09:30:00.000Z" "id-5"
                       sampleJobData emptyStorage in
  fst (getAllJobs (H := roomyBrowser) (snd saved)) = [fst saved] /\
  jp_id (fst saved) = "id-5" /\
  jp_dateAdded (fst saved) = jp_lastUpdated (fst saved).
Proof. vm_compute. repeat split; reflexivity. Qed.

(** A stored status outside the enumeration reads as the default. *)
Example scenario_bogus_status :
  jp_status (dbRowToJobPosting
               (mkDbJobPostingRow "r" "u" None "t" "c" "l" "d" None None None
                  None "m" "Messaged" "n" "BogusValue" None "a" None "b"))
  = "Saved".
Proof. reflexivity. Qed.

(** Three local records, all accepted by the remote store: full success,
    and the local collection is still there until it is cleared. *)
Example scenario_full_migration :
  let ls := storageWith [olderJob; sampleJob; unreachableJob] in
  let ls3 := storageWith [olderJob; sampleJob;
                          withIdentity "id-6" "2024-05-01T00:00:00.000Z"
                                       "2024-05-01T00:00:00.000Z" sampleJob] in
  let run := migrateToCloud (H := roomyBrowser) (H0 := sampleStore)
                            "user-42" ls3 [] in
  fst (fst run) = mkMigrationResult true 3 3 [] /\
  length (snd run) = 3%nat /\
  length (fst (getAllJobs (H := roomyBrowser) (snd (fst run)))) = 3%nat /\
  ls_items (clearLocalData (snd (fst run))) !! STORAGE_KEY = None /\
  fst (fst (migrateToCloud (H := roomyBrowser) (H0 := sampleStore)
                           "user-42" ls [])) 
  = mkMigrationResult false 2 3
      ["Failed to migrate job " +:+ dquote +:+ "Analyst" +:+ dquote
         +:+ " at Unreachable Inc: Unknown error"].
Proof. vm_compute. repeat split; reflexivity. Qed.


(** * Further properties *)

(** ** Local backend: order, reads after writes, frames *)

Section LocalBackendExtras.

Context `{Runtime}.

Lemma compareByDateAdded_swap (a b : JobPosting) :
  (0 < compareByDateAdded a b)%Z -> (compareByDateAdded b a < 0)%Z.
Proof.
  unfold compareByDateAdded.
  destruct (getTime (jp_dateAdded b)), (getTime (jp_dateAdded a)); lia.
Qed.

Lemma insertSorted_HdRel (x y : JobPosting) (l : list JobPosting) :
  HdRel inDisplayOrder y l -> inDisplayOrder y x ->
  HdRel inDisplayOrder y (insertSorted x l).
Proof.
  intros Hhd Hyx. destruct l as [| z rest]; simpl; [by constructor |].
  destruct (_ <=? _)%Z; [by constructor |].
  constructor. by inversion Hhd.
Qed.

Lemma insertSorted_sorted (x : JobPosting) (l : list JobPosting) :
  Sorted inDisplayOrder l -> Sorted inDisplayOrder (insertSorted x l).
Proof.
  induction 1 as [| y rest Hsorted IH Hhd]; simpl.
  - repeat constructor.
  - destruct (compareByDateAdded x y <=? 0)%Z eqn:E.
    + constructor; [by constructor |]. constructor.
      unfold inDisplayOrder. lia.
    + constructor; [exact IH |].
      apply insertSorted_HdRel; [exact Hhd |].
      unfold inDisplayOrder.
      pose proof (compareByDateAdded_swap x y). lia.
Qed.

Lemma sortNewestFirst_sorted (l : list JobPosting) :
  Sorted inDisplayOrder (sortNewestFirst l).
Proof.
  induction l as [| y rest IH]; simpl; [constructor |].
  by apply insertSorted_sorted.
Qed.

(** Sorting a collection that is already in display order changes nothing. *)
Lemma sortNewestFirst_fixed (l : list JobPosting) :
  Sorted inDisplayOrder l -> sortNewestFirst l = l.
Proof.
  induction 1 as [| y rest Hsorted IH Hhd]; simpl; [done |].
  rewrite IH. destruct Hhd as [| z rest' Hyz]; simpl; [done |].
  unfold inDisplayOrder in Hyz.
  by replace (compareByDateAdded y z <=? 0)%Z with true by (symmetry; lia).
Qed.

Lemma Sorted_same_dates (l1 l2 : list JobPosting) :
  map jp_dateAdded l1 = map jp_dateAdded l2 ->
  Sorted inDisplayOrder l1 -> Sorted inDisplayOrder l2.
Proof.
  revert l2. induction l1 as [| a l1 IH]; intros [| b l2] Hmap Hs;
    simpl in Hmap; try discriminate; [constructor |].
  injection Hmap as Hab Hrest.
  apply Sorted_inv in Hs as [Hs Hhd].
  constructor; [by apply IH |].
  destruct l1 as [| a' l1], l2 as [| b' l2]; simpl in Hrest;
    try discriminate; constructor.
  injection Hrest as Hab' _. apply HdRel_inv in Hhd.
  unfold inDisplayOrder, compareByDateAdded in *.
  by rewrite <- Hab, <- Hab'.
Qed.

Lemma Sorted_addedNoEarlier (l : list JobPosting) :
  Sorted inDisplayOrder l -> Forall validDateAdded l ->
  StronglySorted addedNoEarlier l.
Proof.
  intros Hs Hv. apply Sorted_StronglySorted.
  - intros a b c. unfold addedNoEarlier.
    destruct (getTime (jp_dateAdded a)), (getTime (jp_dateAdded b)),
      (getTime (jp_dateAdded c)); try done. lia.
  - induction Hs as [| y rest Hsorted IH Hhd]; [constructor |].
    apply Forall_cons in Hv as [Hy Hv].
    constructor; [by apply IH |].
    destruct Hhd as [| z rest' Hyz]; constructor.
    apply Forall_cons in Hv as [Hz _].
    destruct Hy as [ty Hy], Hz as [tz Hz].
    unfold inDisplayOrder, compareByDateAdded in Hyz.
    unfold addedNoEarlier. rewrite Hy, Hz in *. lia.
Qed.

(** X1.  Whenever every record listed has a valid created-at, [getAllJobs]
    lists the records newest first: each record was added no earlier than
    every record after it. *)
Theorem getAllJobs_newest_first (ls : LocalStorage) :
  Forall validDateAdded (fst (getAllJobs ls)) ->
  StronglySorted addedNoEarlier (fst (getAllJobs ls)).
Proof.
  intros Hvalid. apply Sorted_addedNoEarlier; [| done].
  rewrite getAllJobs_unfold. simpl.
  destruct (fst (isStorageAvailable ls)); [| constructor].
  destruct (ls_items ls !! STORAGE_KEY) as [[jobs | text] |];
    try constructor.
  apply sortNewestFirst_sorted.
Qed.

Lemma getAllJobs_stored (ls : LocalStorage) :
  storedJobs (snd (getAllJobs ls)) = storedJobs ls.
Proof.
  unfold storedJobs. destruct (getAllJobs_frame ls) as [_ Hframe].
  by rewrite Hframe by (symmetry; apply STORAGE_KEY_not_testKey).
Qed.

Lemma getAllJobs_available (ls : LocalStorage) :
  fst (isStorageAvailable ls) = true ->
  fst (getAllJobs ls) = sortNewestFirst (storedJobs ls).
Proof.
  intros Hav. rewrite getAllJobs_unfold. simpl. rewrite Hav.
  unfold storedJobs.
  by destruct (ls_items ls !! STORAGE_KEY) as [[jobs | text] |].
Qed.

Lemma getAllJobs_unavailable (ls : LocalStorage) :
  fst (isStorageAvailable ls) = false -> getAllJobs ls = ([], ls).
Proof.
  intros Hun. rewrite getAllJobs_unfold. rewrite Hun. f_equal.
  revert Hun. unfold isStorageAvailable, setItem, removeItem.
  destruct (ls_denied ls); simpl; [done |].
  by destruct (quotaAllows _ _ _).
Qed.

(** X2.  With the store available, [getAllJobs] lists exactly the records
    of the stored array, each as often as it is stored; it lists nothing
    when the store is unavailable, the key is missing or the stored text is
    empty; and in no case does it change what is stored under the key. *)
Theorem getAllJobs_contents (ls : LocalStorage) :
  (forall jobs, fst (isStorageAvailable ls) = true ->
     ls_items ls !! STORAGE_KEY = Some (JobsJson jobs) ->
     fst (getAllJobs ls) ≡ₚ jobs) /\
  (fst (isStorageAvailable ls) = false -> fst (getAllJobs ls) = []) /\
  (ls_items ls !! STORAGE_KEY = None -> fst (getAllJobs ls) = []) /\
  (ls_items ls !! STORAGE_KEY = Some (OtherText EmptyString) ->
   fst (getAllJobs ls) = []) /\
  ls_items (snd (getAllJobs ls)) !! STORAGE_KEY
  = ls_items ls !! STORAGE_KEY.
Proof.
  rewrite getAllJobs_unfold. simpl.
  split; [| split; [| split; [| split]]].
  - intros jobs -> ->. apply sortNewestFirst_perm.
  - by intros ->.
  - intros ->. by destruct (fst (isStorageAvailable ls)).
  - intros ->. by destruct (fst (isStorageAvailable ls)).
  - destruct (isStorageAvailable_frame ls) as [_ Hframe].
    apply Hframe. symmetry. apply STORAGE_KEY_not_testKey.
Qed.

Lemma read_after_write (jobs : list JobPosting) (ls : LocalStorage) :
  fst (saveAllJobs jobs ls) = true ->
  fst (isStorageAvailable (snd (saveAllJobs jobs ls))) = true ->
  fst (getAllJobs (snd (saveAllJobs jobs ls))) = sortNewestFirst jobs.
Proof.
  intros Hw Hav. rewrite getAllJobs_available by done.
  destruct (saveAllJobs_true jobs ls Hw) as (_ & _ & Hlook).
  unfold storedJobs. by rewrite Hlook.
Qed.

Lemma find_filter_out {A} (p : A -> bool) (xs : list A) :
  List.find p (List.filter (fun x => negb (p x)) xs) = None.
Proof.
  induction xs as [| y ys IH]; simpl; [done |].
  destruct (p y) eqn:E; simpl; [done |]. by rewrite E.
Qed.

Lemma find_perm_None {A} (p : A -> bool) (xs ys : list A) :
  xs ≡ₚ ys -> List.find p ys = None -> List.find p xs = None.
Proof.
  intros Hperm Hnone.
  destruct (List.find p xs) as [x |] eqn:E; [| done].
  apply find_elem_of in E as [Hin Hp]. rewrite Hperm in Hin.
  apply list_elem_of_In in Hin.
  pose proof (find_none _ _ Hnone x Hin). congruence.
Qed.

(** X3.  Delete is terminal: when [deleteJob] answers true and the store is
    still available, [getJob] on the id finds nothing, no listed record has
    the id, and the records listed are those listed before that have
    another id. *)
Theorem deleteJob_terminal (id : string) (ls : LocalStorage) :
  let ls' := snd (deleteJob id ls) in
  fst (deleteJob id ls) = true ->
  fst (isStorageAvailable ls') = true ->
  fst (getJob id ls') = None /\
  (forall j, j ∈ fst (getAllJobs ls') -> jp_id j <> id) /\
  fst (getAllJobs ls')
  ≡ₚ List.filter (fun job => negb (hasId id job)) (fst (getAllJobs ls)).
Proof.
  unfold deleteJob. destruct (getAllJobs ls) as [jobs ls1]; simpl.
  destruct (_ =? _)%nat; simpl; [done |].
  intros Hw Hav.
  pose proof (read_after_write _ _ Hw Hav) as Hread.
  assert (Hperm : fst (getAllJobs
                         (snd (saveAllJobs
                                 (List.filter (fun job => negb (hasId id job)) jobs)
                                 ls1)))
                  ≡ₚ List.filter (fun job => negb (hasId id job)) jobs)
    by (rewrite Hread; apply sortNewestFirst_perm).
  assert (Hnone : List.find (hasId id)
                    (fst (getAllJobs
                            (snd (saveAllJobs
                                    (List.filter (fun job => negb (hasId id job)) jobs)
                                    ls1)))) = None)
    by (eapply find_perm_None; [exact Hperm | apply find_filter_out]).
  split; [| split; [| exact Hperm]].
  - unfold getJob. by destruct (getAllJobs _).
  - intros j Hj Hid. apply list_elem_of_In in Hj.
    pose proof (find_none _ _ Hnone j Hj) as Hno.
    unfold hasId in Hno. apply String.eqb_neq in Hno. done.
Qed.

Lemma find_insert_found {A} (p : A -> bool) (xs : list A) (i : nat) (x : A) :
  findIndex p xs = Some i -> p x = true ->
  List.find p (<[i := x]> xs) = Some x.
Proof.
  revert i. induction xs as [| y ys IH]; intros i; simpl; [done |].
  destruct (p y) eqn:E.
  - intros [= <-] Hp. simpl. by rewrite Hp.
  - destruct (findIndex p ys) as [k |]; simpl; [| done].
    intros [= <-] Hp. simpl. rewrite E. by apply IH.
Qed.

Lemma map_insert_same {A B} (f : A -> B) (xs : list A) (i : nat) (x y : A) :
  xs !! i = Some y -> f x = f y -> map f (<[i := x]> xs) = map f xs.
Proof.
  revert i. induction xs as [| z zs IH]; intros [| i]; simpl; try done.
  - intros [= ->] Hf. by rewrite Hf.
  - intros Hlook Hf. f_equal. by apply IH.
Qed.

Lemma NoDup_ids_unique (l : list JobPosting) (x y : JobPosting) :
  NoDup (jobIds l) -> x ∈ l -> y ∈ l -> jp_id x = jp_id y -> x = y.
Proof.
  unfold jobIds. induction l as [| z zs IH]; simpl; intros Hnd Hx Hy Hid.
  - by apply elem_of_nil in Hx.
  - apply NoDup_cons in Hnd as [Hz Hnd].
    apply elem_of_cons in Hx as [-> | Hx], Hy as [-> | Hy]; [done | | |].
    + exfalso. apply Hz. rewrite Hid. apply list_elem_of_fmap. by exists y.
    + exfalso. apply Hz. rewrite <- Hid. apply list_elem_of_fmap. by exists x.
    + by apply IH.
Qed.

(** X4.  Update then get: when the listed identifiers are distinct, the
    store accepts the write [updateJob] makes and is still available,
    [getJob] on the id returns the record [updateJob] returned, and the
    listing holds the records listed before with that record in the place
    of the one updated, under the same identifiers. *)
Theorem updateJob_then_getJob (now id : string) (u : JobUpdates)
    (ls : LocalStorage) (new : JobPosting) (index : nat) :
  let listing := fst (getAllJobs ls) in
  let ls' := snd (updateJob now id u ls) in
  NoDup (jobIds listing) ->
  fst (updateJob now id u ls) = Some new ->
  findIndex (hasId id) listing = Some index ->
  fst (saveAllJobs (<[index := new]> listing) (snd (getAllJobs ls))) = true ->
  fst (isStorageAvailable ls') = true ->
  fst (getJob id ls') = Some new /\
  fst (getAllJobs ls') ≡ₚ <[index := new]> listing /\
  jobIds (<[index := new]> listing) = jobIds listing.
Proof.
  unfold updateJob.
  destruct (getAllJobs ls) as [jobs ls1]; simpl in *.
  intros Hnd Hnew Hidx.
  destruct (findIndex_lookup _ _ _ Hidx) as (old & Hlook & Hfind).
  rewrite Hidx, Hlook in Hnew. rewrite Hidx, Hlook.
  destruct (saveAllJobs (<[index := mergedRecord now old u]> jobs) ls1)
    as [written ls2] eqn:Hsave; simpl in *.
  injection Hnew as <-. rewrite Hsave. simpl.
  intros Hw Hav. subst written.
  pose proof (read_after_write (<[index := mergedRecord now old u]> jobs) ls1)
    as Hread.
  rewrite Hsave in Hread. simpl in Hread. specialize (Hread eq_refl Hav).
  assert (Hids : jobIds (<[index := mergedRecord now old u]> jobs) = jobIds jobs)
    by (unfold jobIds; by eapply map_insert_same).
  assert (Hperm : fst (getAllJobs ls2)
                  ≡ₚ <[index := mergedRecord now old u]> jobs)
    by (rewrite Hread; apply sortNewestFirst_perm).
  destruct (find_elem_of _ _ _ Hfind) as [_ Hid].
  assert (Hin : mergedRecord now old u
                ∈ <[index := mergedRecord now old u]> jobs).
  { apply list_elem_of_lookup. exists index.
    apply list_lookup_insert_eq. by eapply lookup_lt_Some. }
  split; [| split; [exact Hperm | exact Hids]].
  unfold getJob. destruct (getAllJobs ls2) as [jobs2 ls3]. simpl in *.
  apply find_unique; [by rewrite Hperm | done |].
  intros y Hy Hyid. rewrite Hperm in Hy.
  apply (NoDup_ids_unique (<[index := mergedRecord now old u]> jobs));
    [by rewrite Hids | done | done |].
  unfold hasId in *. simpl in *.
  apply String.eqb_eq in Hid, Hyid. congruence.
Qed.

(** X5.  Save grows the collection by the new record and nothing else: when
    the store accepts the write [saveJob] makes and is still available, the
    listing after [saveJob] holds the records listed before together with
    the new one, and [getLocalJobCount] is one more. *)
Theorem saveJob_grows (now uuid : string) (p : JobData) (ls : LocalStorage) :
  let ls' := snd (saveJob now uuid p ls) in
  fst (saveAllJobs (fst (getAllJobs ls) ++ [fst (saveJob now uuid p ls)])
                   (snd (getAllJobs ls))) = true ->
  fst (isStorageAvailable ls') = true ->
  fst (getAllJobs ls')
  ≡ₚ (fst (getAllJobs ls) ++ [fst (saveJob now uuid p ls)])%list /\
  fst (getLocalJobCount ls') = S (fst (getLocalJobCount ls)).
Proof.
  unfold saveJob, getLocalJobCount.
  destruct (getAllJobs ls) as [jobs ls1]; simpl.
  destruct (saveAllJobs (jobs ++ [newRecord uuid now now p])%list ls1)
    as [written ls2] eqn:Hsave; simpl in *.
  rewrite Hsave. simpl. intros Hw Hav. subst written.
  pose proof (read_after_write (jobs ++ [newRecord uuid now now p])%list ls1)
    as Hread.
  rewrite Hsave in Hread. simpl in Hread. specialize (Hread eq_refl Hav).
  destruct (getAllJobs ls2) as [jobs2 ls3]. simpl in *. subst jobs2.
  split; [apply sortNewestFirst_perm |].
  rewrite sortNewestFirst_perm. rewrite length_app. simpl. lia.
Qed.

End LocalBackendExtras.

Section LocalBackendFrames.

Context `{Runtime}.

Lemma saveAllJobs_frame (jobs : list JobPosting) (ls : LocalStorage) :
  ls_denied (snd (saveAllJobs jobs ls)) = ls_denied ls /\
  forall key, key <> STORAGE_KEY -> key <> testKey ->
    ls_items (snd (saveAllJobs jobs ls)) !! key = ls_items ls !! key.
Proof.
  unfold saveAllJobs.
  pose proof (isStorageAvailable_frame ls) as [Hden Hframe].
  destruct (isStorageAvailable ls) as [[|] ls1]; simpl in *;
    [| split; [done | by intros; apply Hframe]].
  unfold setItem. destruct (ls_denied ls1) eqn:Hd; simpl;
    [split; [congruence | by intros; apply Hframe] |].
  destruct (quotaAllows _ _ _); simpl;
    [| split; [congruence | by intros; apply Hframe]].
  split; [congruence |]. intros key Hk Ht.
  rewrite lookup_insert_ne by done. by apply Hframe.
Qed.

Lemma saveAllJobs_stored (jobs : list JobPosting) (ls : LocalStorage) :
  storedJobs (snd (saveAllJobs jobs ls)) = jobs \/
  storedJobs (snd (saveAllJobs jobs ls)) = storedJobs ls.
Proof.
  unfold saveAllJobs.
  pose proof (isStorageAvailable_frame ls) as [_ Hframe].
  assert (Hprobe : storedJobs (snd (isStorageAvailable ls)) = storedJobs ls).
  { unfold storedJobs.
    by rewrite Hframe by (symmetry; apply STORAGE_KEY_not_testKey). }
  destruct (isStorageAvailable ls) as [[|] ls1]; simpl in *; [| by right].
  unfold setItem. destruct (ls_denied ls1); simpl; [by right |].
  destruct (quotaAllows _ _ _); simpl; [| by right].
  left. unfold storedJobs. simpl. by rewrite lookup_insert_eq.
Qed.

Lemma saveAllJobs_stored_key (jobs : list JobPosting) (ls : LocalStorage) :
  fst (saveAllJobs jobs ls) = true \/
  ls_items (snd (saveAllJobs jobs ls)) !! STORAGE_KEY
  = ls_items ls !! STORAGE_KEY.
Proof.
  unfold saveAllJobs.
  pose proof (isStorageAvailable_frame ls) as [_ Hframe].
  specialize (Hframe STORAGE_KEY (not_eq_sym STORAGE_KEY_not_testKey)).
  destruct (isStorageAvailable ls) as [[|] ls1]; simpl in *; [| by right].
  unfold setItem. destruct (ls_denied ls1); simpl; [by right |].
  destruct (quotaAllows _ _ _); simpl; [by left | by right].
Qed.

Lemma saveAllJobs_unavailable_state (jobs : list JobPosting)
    (ls : LocalStorage) :
  fst (isStorageAvailable ls) = false -> saveAllJobs jobs ls = (false, ls).
Proof.
  intros Hun. pose proof (getAllJobs_unavailable ls Hun) as Hget.
  rewrite getAllJobs_unfold in Hget. injection Hget as _ Hstate.
  unfold saveAllJobs.
  destruct (isStorageAvailable ls) as [[|] ls1]; simpl in *; [done |].
  by subst.
Qed.

(** X6.  No operation of the Local Backend reads or writes any key of the
    store but its own and the availability probe's: every other key holds
    after [getJob], [saveJob], [updateJob] and [deleteJob] what it held
    before. *)
Theorem backend_keeps_other_keys (now uuid id : string) (p : JobData)
    (u : JobUpdates) (ls : LocalStorage) (key : string) :
  key <> STORAGE_KEY -> key <> testKey ->
  ls_items (snd (getJob id ls)) !! key = ls_items ls !! key /\
  ls_items (snd (saveJob now uuid p ls)) !! key = ls_items ls !! key /\
  ls_items (snd (updateJob now id u ls)) !! key = ls_items ls !! key /\
  ls_items (snd (deleteJob id ls)) !! key = ls_items ls !! key.
Proof.
  intros Hk Ht.
  pose proof (getAllJobs_frame ls) as [_ Hread].
  specialize (Hread key Ht).
  unfold getJob, saveJob, updateJob, deleteJob.
  destruct (getAllJobs ls) as [jobs ls1]; simpl in *.
  split; [done |]. split; [| split].
  - pose proof (saveAllJobs_frame (jobs ++ [newRecord uuid now now p]) ls1)
      as [_ Hw].
    destruct (saveAllJobs _ ls1) as [written ls2]; simpl in *.
    by rewrite Hw.
  - destruct (findIndex (hasId id) jobs) as [index |]; [| done].
    destruct (jobs !! index) as [old |]; [| done].
    pose proof (saveAllJobs_frame (<[index := mergedRecord now old u]> jobs) ls1)
      as [_ Hw].
    destruct (saveAllJobs _ ls1) as [written ls2]; simpl in *.
    by rewrite Hw.
  - destruct (_ =? _)%nat; [done |].
    pose proof (saveAllJobs_frame
                  (List.filter (fun job => negb (hasId id job)) jobs) ls1)
      as [_ Hw].
    by rewrite Hw.
Qed.

Lemma mutators_skip_unavailable_store (now uuid id : string) (p : JobData)
    (u : JobUpdates) (ls : LocalStorage) :
  fst (isStorageAvailable ls) = false ->
  snd (saveJob now uuid p ls) = ls /\
  snd (updateJob now id u ls) = ls /\
  snd (deleteJob id ls) = ls.
Proof.
  intros Hun. pose proof (getAllJobs_unavailable ls Hun) as Hget.
  unfold saveJob, updateJob, deleteJob. rewrite Hget. simpl.
  by rewrite (saveAllJobs_unavailable_state _ ls Hun).
Qed.

(** X7.  With the store unavailable every operation leaves it exactly as it
    is: the listing is empty, [getJob] and [updateJob] answer null and
    [deleteJob] false whatever the store holds, while [saveJob] still
    returns its new record. *)
Theorem unavailable_store_untouched (now uuid id : string) (p : JobData)
    (u : JobUpdates) (ls : LocalStorage) :
  fst (isStorageAvailable ls) = false ->
  getAllJobs ls = ([], ls) /\
  getJob id ls = (None, ls) /\
  saveJob now uuid p ls = (newRecord uuid now now p, ls) /\
  updateJob now id u ls = (None, ls) /\
  deleteJob id ls = (false, ls).
Proof.
  intros Hun. pose proof (getAllJobs_unavailable ls Hun) as Hget.
  unfold getJob, saveJob, updateJob, deleteJob. rewrite Hget. simpl.
  rewrite (saveAllJobs_unavailable_state _ ls Hun). done.
Qed.

Lemma listing_cases (ls : LocalStorage) :
  fst (getAllJobs ls) = [] \/ fst (getAllJobs ls) ≡ₚ storedJobs ls.
Proof.
  destruct (fst (isStorageAvailable ls)) eqn:Hav.
  - right. rewrite getAllJobs_available by done. apply sortNewestFirst_perm.
  - left. by rewrite getAllJobs_unavailable.
Qed.

Lemma NoDup_ids_perm (l1 l2 : list JobPosting) :
  l1 ≡ₚ l2 -> NoDup (jobIds l1) -> NoDup (jobIds l2).
Proof.
  intros Hperm. unfold jobIds.
  assert (Hmap : map jp_id l1 ≡ₚ map jp_id l2) by by apply Permutation_map.
  by rewrite Hmap.
Qed.

Lemma NoDup_ids_filter (p : JobPosting -> bool) (l : list JobPosting) :
  NoDup (jobIds l) -> NoDup (jobIds (List.filter p l)).
Proof.
  unfold jobIds. induction l as [| y ys IH]; simpl; [done |].
  intros Hnd. apply NoDup_cons in Hnd as [Hy Hnd].
  destruct (p y); simpl; [| by apply IH].
  apply NoDup_cons. split; [| by apply IH].
  intros Hin. apply Hy.
  apply list_elem_of_fmap in Hin as (z & Hz & Hzin).
  apply list_elem_of_fmap. exists z. split; [done |].
  apply list_elem_of_In in Hzin. apply filter_In in Hzin as [Hzin _].
  by apply list_elem_of_In.
Qed.

Lemma listing_after_write (written : list JobPosting) (ls1 : LocalStorage) :
  NoDup (jobIds written) -> NoDup (jobIds (storedJobs ls1)) ->
  NoDup (jobIds (fst (getAllJobs (snd (saveAllJobs written ls1))))).
Proof.
  intros Hw Hs.
  destruct (listing_cases (snd (saveAllJobs written ls1))) as [-> | Hperm];
    [constructor |].
  apply (NoDup_ids_perm (storedJobs (snd (saveAllJobs written ls1))));
    [done |].
  by destruct (saveAllJobs_stored written ls1) as [-> | ->].
Qed.

(** X8.  Identifiers stay pairwise distinct: if the records listed have
    distinct identifiers, so have the records listed after [updateJob],
    after [deleteJob], and after [saveJob] with an identifier not yet
    listed, whether or not the write went through. *)
Theorem identifiers_stay_distinct (now uuid id : string) (p : JobData)
    (u : JobUpdates) (ls : LocalStorage) :
  NoDup (jobIds (fst (getAllJobs ls))) ->
  (uuid ∉ jobIds (fst (getAllJobs ls)) ->
   NoDup (jobIds (fst (getAllJobs (snd (saveJob now uuid p ls)))))) /\
  NoDup (jobIds (fst (getAllJobs (snd (updateJob now id u ls))))) /\
  NoDup (jobIds (fst (getAllJobs (snd (deleteJob id ls))))).
Proof.
  intros Hnd.
  destruct (fst (isStorageAvailable ls)) eqn:Hav.
  - assert (Hstored : NoDup (jobIds (storedJobs (snd (getAllJobs ls))))).
    { rewrite getAllJobs_stored.
      apply (NoDup_ids_perm (fst (getAllJobs ls))); [| done].
      rewrite getAllJobs_available by done. apply sortNewestFirst_perm. }
    assert (Hagain : NoDup (jobIds (fst (getAllJobs (snd (getAllJobs ls)))))).
    { destruct (listing_cases (snd (getAllJobs ls))) as [-> | Hperm];
        [constructor |].
      by apply (NoDup_ids_perm (storedJobs (snd (getAllJobs ls)))). }
    unfold saveJob, updateJob, deleteJob.
    destruct (getAllJobs ls) as [jobs ls1]; simpl in *.
    split; [| split].
    + intros Hfresh.
      pose proof (listing_after_write (jobs ++ [newRecord uuid now now p]) ls1)
        as Hafter.
      destruct (saveAllJobs _ ls1) as [written ls2]; simpl in *.
      apply Hafter; [| done].
      unfold jobIds. rewrite map_app. simpl.
      apply NoDup_app. split; [done |]. split; [| apply NoDup_singleton].
      intros x Hx Hx'. apply list_elem_of_singleton in Hx'. by subst.
    + destruct (findIndex (hasId id) jobs) as [index |]; [| done].
      destruct (jobs !! index) as [old |] eqn:Hlook; [| done].
      pose proof (listing_after_write
                    (<[index := mergedRecord now old u]> jobs) ls1) as Hafter.
      destruct (saveAllJobs _ ls1) as [written ls2]; simpl in *.
      apply Hafter; [| done].
      unfold jobIds. by erewrite map_insert_same.
    + destruct (_ =? _)%nat; [done |].
      apply listing_after_write; [| done]. by apply NoDup_ids_filter.
  - destruct (mutators_skip_unavailable_store now uuid id p u ls Hav)
      as (Hs & Hu & Hd).
    rewrite Hs, Hu, Hd. simpl. rewrite getAllJobs_unavailable by done.
    repeat split; constructor.
Qed.

(** X9.  The probes agree and clearing empties: [hasLocalData] is true
    exactly when [getLocalJobCount] is positive, and after [clearLocalData]
    the first is false and the second zero, whether or not the store let the
    removal through; clearing touches no other key. *)
Theorem clearLocalData_empties (ls : LocalStorage) :
  (fst (hasLocalData ls) = true <-> (0 < fst (getLocalJobCount ls))%nat) /\
  fst (hasLocalData (clearLocalData ls)) = false /\
  fst (getLocalJobCount (clearLocalData ls)) = 0%nat /\
  (forall key, key <> STORAGE_KEY ->
     ls_items (clearLocalData ls) !! key = ls_items ls !! key).
Proof.
  split; [| split; [| split]].
  - unfold hasLocalData, getLocalJobCount.
    destruct (getAllJobs ls) as [jobs ls1]; simpl.
    rewrite negb_true_iff, Nat.eqb_neq. lia.
  - unfold hasLocalData.
    assert (Hempty : fst (getAllJobs (clearLocalData ls)) = []).
    { destruct (listing_cases (clearLocalData ls)) as [-> | Hperm]; [done |].
      revert Hperm. unfold clearLocalData, removeItem, storedJobs.
      destruct (ls_denied ls) eqn:Hd; simpl.
      - rewrite getAllJobs_unavailable; [done |].
        by rewrite isStorageAvailable_denied.
      - rewrite lookup_delete_eq. intros Hperm.
        by apply Permutation_nil_r in Hperm. }
    destruct (getAllJobs (clearLocalData ls)) as [jobs ls1]; simpl in *.
    by subst.
  - unfold getLocalJobCount.
    assert (Hempty : fst (getAllJobs (clearLocalData ls)) = []).
    { destruct (listing_cases (clearLocalData ls)) as [-> | Hperm]; [done |].
      revert Hperm. unfold clearLocalData, removeItem, storedJobs.
      destruct (ls_denied ls) eqn:Hd; simpl.
      - rewrite getAllJobs_unavailable; [done |].
        by rewrite isStorageAvailable_denied.
      - rewrite lookup_delete_eq. intros Hperm.
        by apply Permutation_nil_r in Hperm. }
    destruct (getAllJobs (clearLocalData ls)) as [jobs ls1]; simpl in *.
    by subst.
  - intros key Hk. unfold clearLocalData, removeItem.
    destruct (ls_denied ls); simpl; [done |].
    by rewrite lookup_delete_ne.
Qed.

End LocalBackendFrames.

Lemma getAllJobs_newest_first_witness :
  StronglySorted (addedNoEarlier (H := roomyBrowser))
    (fst (getAllJobs (H := roomyBrowser) (storageWith [olderJob; sampleJob]))).
Proof.
  apply (getAllJobs_newest_first (H := roomyBrowser)).
  evaluate_list. repeat constructor; vm_compute; by eexists.
Defined.

Lemma deleteJob_terminal_witness :
  let ls' := snd (deleteJob (H := roomyBrowser) "id-1"
                            (storageWith [olderJob; sampleJob])) in
  fst (getJob (H := roomyBrowser) "id-1" ls') = None /\
  fst (getAllJobs (H := roomyBrowser) ls') ≡ₚ [olderJob].
Proof.
  intros ls'.
  destruct (deleteJob_terminal (H := roomyBrowser) "id-1"
              (storageWith [olderJob; sampleJob]))
    as (Hget & _ & Hlist); [vm_compute; reflexivity | vm_compute; reflexivity |].
  split; [exact Hget | exact Hlist].
Defined.

Lemma updateJob_then_getJob_witness :
  let ls := storageWith [olderJob; sampleJob] in
  let now := "2025-03-01T09:30:00.000Z" in
  let new := mergedRecord now sampleJob (statusUpdate "Interview") in
  fst (getJob (H := roomyBrowser) "id-1"
              (snd (updateJob (H := roomyBrowser) now "id-1"
                              (statusUpdate "Interview") ls)))
  = Some new.
Proof.
  intros ls now new.
  apply (updateJob_then_getJob (H := roomyBrowser) now "id-1"
           (statusUpdate "Interview") ls new 0).
  - apply (bool_decide_unpack _). vm_compute. exact I.
  - vm_compute; reflexivity.
  - vm_compute; reflexivity.
  - vm_compute; reflexivity.
  - vm_compute; reflexivity.
Defined.

Lemma saveJob_grows_witness :
  let ls := storageWith [olderJob; sampleJob] in
  fst (getLocalJobCount (H := roomyBrowser)
         (snd (saveJob (H := roomyBrowser) "2025-03-01T09:30:00.000Z" "id-2"
                       sampleJobData ls)))
  = S (fst (getLocalJobCount (H := roomyBrowser) ls)).
Proof.
  intros ls.
  apply (saveJob_grows (H := roomyBrowser) "2025-03-01T09:30:00.000Z" "id-2"
           sampleJobData ls).
  - vm_compute; reflexivity.
  - vm_compute; reflexivity.
Defined.

Lemma backend_keeps_other_keys_witness :
  let ls := mkLocalStorage false
              (<["theme" := OtherText "dark"]>
                 {[ STORAGE_KEY := JobsJson [olderJob; sampleJob] ]}) in
  ls_items (snd (deleteJob (H := roomyBrowser) "id-1" ls)) !! "theme"
  = Some (OtherText "dark").
Proof.
  intros ls.
  destruct (backend_keeps_other_keys (H := roomyBrowser)
              "2025-03-01T09:30:00.000Z" "id-2" "id-1" sampleJobData
              noUpdates ls "theme")
    as (_ & _ & _ & Hdel); [discriminate | discriminate |].
  rewrite Hdel. vm_compute; reflexivity.
Defined.

Lemma unavailable_store_untouched_witness :
  let ls := mkLocalStorage true {[ STORAGE_KEY := JobsJson [sampleJob] ]} in
  getJob (H := roomyBrowser) "id-1" ls = (None, ls) /\
  deleteJob (H := roomyBrowser) "id-1" ls = (false, ls).
Proof.
  intros ls.
  destruct (unavailable_store_untouched (H := roomyBrowser)
              "2025-03-01T09:30:00.000Z" "id-2" "id-1" sampleJobData
              noUpdates ls)
    as (_ & Hget & _ & _ & Hdel); [reflexivity |].
  split; [exact Hget | exact Hdel].
Defined.

Lemma identifiers_stay_distinct_witness :
  let ls := storageWith [olderJob; sampleJob] in
  NoDup (jobIds (fst (getAllJobs (H := roomyBrowser)
                        (snd (saveJob (H := roomyBrowser)
                                      "2025-03-01T09:30:00.000Z" "id-2"
                                      sampleJobData ls))))).
Proof.
  intros ls.
  destruct (identifiers_stay_distinct (H := roomyBrowser)
              "2025-03-01T09:30:00.000Z" "id-2" "id-1" sampleJobData
              noUpdates ls) as (Hsave & _ & _).
  - apply (bool_decide_unpack _). vm_compute. exact I.
  - apply Hsave. apply (bool_decide_unpack _). vm_compute. exact I.
Defined.


(** ** Migration, transformer and remote backend *)

Lemma read_back_payload (p : JobData) (u rowId dateAdded lastUpdated : string) :
  wellTypedJobData p ->
  jobDataOf (dbRowToJobPosting
               (insertedRow rowId dateAdded lastUpdated
                            (jobPostingToDbInsert p u))) = p.
Proof.
  intros [Hs Ho]. apply includes_spec in Hs, Ho.
  destruct p; simpl in *.
  unfold jobDataOf, dbRowToJobPosting; simpl.
  unfold isValidApplicationStatus, isValidReferralOutreachStatus.
  by rewrite Hs, Ho.
Qed.

Lemma read_legal (row : DbJobPostingRow) :
  jobLevelLegal (dbRowToJobPosting row).
Proof.
  unfold jobLevelLegal. simpl. split.
  - destruct (isValidApplicationStatus (row_status row)) eqn:E.
    + by apply includes_spec.
    + set_solver.
  - destruct (isValidReferralOutreachStatus (row_referral_outreach_status row))
      eqn:E.
    + by apply includes_spec.
    + set_solver.
Qed.

Section MigrationExtras.

Context `{Runtime} `{RemoteStore Remote}.

(** X10.  With local storage unavailable, [migrateToCloud] reports success
    with nothing to migrate, whatever the store holds, and neither the local
    store nor the remote one is touched. *)
Theorem migrateToCloud_unavailable (userId : string) (ls : LocalStorage)
    (remote : Remote) :
  fst (isStorageAvailable ls) = false ->
  migrateToCloud userId ls remote
  = (mkMigrationResult true 0 0 [], ls, remote).
Proof.
  intros Hun. unfold migrateToCloud.
  by rewrite (getAllJobs_unavailable ls Hun).
Qed.

Lemma saveAttempts_all_saved (userId : string) (jobs : list JobPosting)
    (remote : Remote) :
  answersWithInsertedRow ->
  Forall (fun job => wellTypedJobData (migrationData job)) jobs ->
  Forall (fun attempt =>
            exists record, snd attempt = inr record /\
                           jobDataOf record = migrationData (fst attempt))
         (saveAttempts userId jobs remote).
Proof.
  intros Hecho. revert remote.
  induction jobs as [| job rest IH]; intros remote Htyped; simpl;
    [constructor |].
  apply Forall_cons in Htyped as [Hjob Hrest].
  unfold supabaseSaveJob.
  destruct (Hecho (jobPostingToDbInsert (migrationData job) userId) remote)
    as (rowId & added & updated & Hreply).
  destruct (insertRow _ remote) as [reply remote1]. simpl in Hreply.
  subst reply. simpl. constructor; [| by apply IH].
  simpl. eexists. split; [reflexivity |].
  by apply read_back_payload.
Qed.

Lemma all_saved_no_failures
    (attempts : list (JobPosting * (Thrown + JobPosting))) :
  Forall (fun attempt =>
            exists record, snd attempt = inr record /\
                           jobDataOf record = migrationData (fst attempt))
         attempts ->
  List.filter saved attempts = attempts /\ omap failureOf attempts = [].
Proof.
  induction 1 as [| [job out] rest (record & Hout & _) _ [IHs IHf]];
    [done |].
  simpl in Hout. subst out. unfold omap, saved, failureOf in *. simpl.
  split; [by rewrite IHs | exact IHf].
Qed.

(** X11.  Against a store that answers every insert with the inserted row,
    the migration of well-typed local records succeeds entirely: every
    record is saved, no error is recorded, and each record read back
    carries the payload built from its local record. *)
Theorem migrateToCloud_complete (userId : string) (ls : LocalStorage)
    (remote : Remote) :
  answersWithInsertedRow ->
  Forall (fun job => wellTypedJobData (migrationData job))
         (fst (getAllJobs ls)) ->
  let result := fst (fst (migrateToCloud userId ls remote)) in
  success result = true /\
  migratedCount result = length (fst (getAllJobs ls)) /\
  totalCount result = length (fst (getAllJobs ls)) /\
  errors result = [] /\
  Forall (fun attempt =>
            exists record, snd attempt = inr record /\
                           jobDataOf record = migrationData (fst attempt))
         (saveAttempts userId (fst (getAllJobs ls)) remote).
Proof.
  intros Hecho Htyped result.
  pose proof (saveAttempts_all_saved userId _ remote Hecho Htyped) as Hall.
  assert (Hlen : length (saveAttempts userId (fst (getAllJobs ls)) remote)
                 = length (fst (getAllJobs ls))).
  { rewrite <- (saveAttempts_jobs userId (fst (getAllJobs ls)) remote) at 2.
    by rewrite length_map. }
  destruct (all_saved_no_failures _ Hall) as [Hsaved Hnone].
  split; [| split; [| split; [| split; [| exact Hall]]]];
    subst result; unfold migrateToCloud;
    destruct (getAllJobs ls) as [jobs ls1]; simpl in *;
    (destruct jobs as [| job rest] eqn:Hj; [by simpl |]);
    rewrite <- Hj in *;
    (replace (length jobs =? 0)%nat with false
       by (symmetry; apply Nat.eqb_neq; subst jobs; simpl; lia));
    pose proof (migrateLoop_run userId jobs
                  (mkMigrationResult false 0 (length jobs) []) remote)
      as (_ & Ht & Hm & He);
    destruct (migrateLoop userId jobs _ remote) as [result1 remote1];
    simpl in *; rewrite ?Ht, ?Hm, ?He, ?Hsaved, ?Hnone, ?Hlen; try done.
  apply Nat.eqb_refl.
Qed.

End MigrationExtras.

(** X12.  The two backends merge an update alike: for an update object
    whose named properties all have values (none null or undefined) and
    whose named statuses are legal, reading the row the store hands back
    for the update row built from it gives the record the Local Backend
    builds from the record read before the update, with identifier and
    created-at kept and updated-at set to the time of the update. *)
Theorem remote_update_matches_local (now : string) (u : JobUpdates)
    (row : DbJobPostingRow) :
  namesOnlyValues u ->
  namesLegalStatuses u ->
  dbRowToJobPosting (updatedRow (jobUpdatesToDbUpdate now u) row)
  = mergedRecord now (dbRowToJobPosting row) u.
Proof.
  intros _ [Hs Ho].
  unfold dbRowToJobPosting, mergedRecord, withIdentity, spread; simpl.
  f_equal.
  - destruct (up_referralOutreachStatus u) as [s |] eqn:E; simpl; [| done].
    specialize (Ho s eq_refl). apply includes_spec in Ho.
    unfold isValidReferralOutreachStatus. by rewrite Ho.
  - destruct (up_status u) as [s |] eqn:E; simpl; [| done].
    specialize (Hs s eq_refl). apply includes_spec in Hs.
    unfold isValidApplicationStatus. by rewrite Hs.
  - by destruct (up_referralContacts u).
Qed.

Lemma remote_update_matches_local_witness :
  dbRowToJobPosting
    (updatedRow (jobUpdatesToDbUpdate "2025-03-01T09:30:00.000Z"
                                      (statusUpdate "Interview")) sampleRow)
  = mergedRecord "2025-03-01T09:30:00.000Z" (dbRowToJobPosting sampleRow)
                 (statusUpdate "Interview").
Proof.
  apply remote_update_matches_local.
  - repeat split; discriminate.
  - split; intros s Hs; vm_compute in Hs; [injection Hs as <- | discriminate].
    apply includes_spec. reflexivity.
Defined.

(** X13.  Whatever the relational store answers, every record the Remote
    Backend returns, from [saveJob], [getJob], [getAllJobs] or [updateJob],
    carries legal values in its two job-level enumerations. *)
Theorem remote_records_legal `{RemoteStore Remote} `{RemoteQueries Remote}
    (now userId id : string) (p : JobData) (u : JobUpdates) (remote : Remote) :
  match fst (supabaseSaveJob userId p remote) with
  | inr j => jobLevelLegal j
  | inl _ => True
  end /\
  match fst (supabaseGetJob userId id remote) with
  | inr (Some j) => jobLevelLegal j
  | _ => True
  end /\
  match fst (supabaseGetAllJobs userId remote) with
  | inr jobs => Forall jobLevelLegal jobs
  | inl _ => True
  end /\
  match fst (supabaseUpdateJob now userId id u remote) with
  | inr (Some j) => jobLevelLegal j
  | _ => True
  end.
Proof.
  split; [| split; [| split]].
  - unfold supabaseSaveJob.
    destruct (insertRow _ remote) as [[data | message | e] remote1]; simpl;
      try done. apply read_legal.
  - unfold supabaseGetJob.
    destruct (selectRow id userId remote) as [[data | code message | e] remote1];
      simpl; try done; [apply read_legal |].
    by destruct (String.eqb code "PGRST116").
  - unfold supabaseGetAllJobs.
    destruct (selectRows userId remote) as [[data | code message | e] remote1];
      simpl; try done.
    apply Forall_forall. intros j Hj.
    apply list_elem_of_fmap in Hj as (row & -> & _). apply read_legal.
  - unfold supabaseUpdateJob.
    destruct (updateRow _ id userId remote)
      as [[data | code message | e] remote1];
      simpl; try done; [apply read_legal |].
    by destruct (String.eqb code "PGRST116").
Qed.

Lemma migrateToCloud_unavailable_witness :
  let ls := mkLocalStorage true {[ STORAGE_KEY := JobsJson [sampleJob] ]} in
  migrateToCloud (H := roomyBrowser) (H0 := sampleStore) "user-42" ls []
  = (mkMigrationResult true 0 0 [], ls, []).
Proof.
  intros ls.
  apply (migrateToCloud_unavailable (H := roomyBrowser) (H0 := sampleStore)).
  reflexivity.
Defined.

Lemma migrateToCloud_complete_witness :
  let ls := storageWith [olderJob; sampleJob] in
  let result := fst (fst (migrateToCloud (H := roomyBrowser) (H0 := echoStore)
                                         "user-42" ls [])) in
  success result = true /\ migratedCount result = 2%nat /\ errors result = [].
Proof.
  intros ls result.
  destruct (migrateToCloud_complete (H := roomyBrowser) (H0 := echoStore)
              "user-42" ls [])
    as (Hs & Hm & _ & He & _).
  - intros dbInsert remote. eexists _, _, _. reflexivity.
  - evaluate_list. repeat constructor; apply includes_spec; reflexivity.
  - split; [exact Hs |]. split; [exact Hm | exact He].
Defined.

(** ** Caching selector *)

Lemma sameUserId_eq (a b : option string) :
  sameUserId a b = true <-> a = b.
Proof.
  destruct a as [x |], b as [y |]; simpl; try (split; congruence).
  rewrite String.eqb_eq. split; congruence.
Qed.

(** X14.  Asked again for the identity it served last, the factory hands
    back the very instance it handed out before and constructs nothing. *)
Theorem getService_cached (userId : option string)
    (factory : StorageServiceFactory) (constructed : nat) :
  let '(service, factory1, constructed1) :=
    getService userId factory constructed in
  getService userId factory1 constructed1 = (service, factory1, constructed1).
Proof.
  unfold getService.
  assert (Hrefl : sameUserId userId userId = true) by by apply sameUserId_eq.
  destruct (currentService factory) as [service |] eqn:Hcur.
  - destruct (sameUserId (currentUserId factory) userId) eqn:Hsame.
    + by rewrite Hcur, Hsame.
    + simpl. by rewrite Hrefl.
  - simpl. by rewrite Hrefl.
Qed.

Lemma runFactory_backends (calls : list FactoryCall)
    (factory : StorageServiceFactory) (constructed : nat) :
  match currentService factory with
  | Some service =>
      si_backend service = createStorageService (currentUserId factory)
  | None => True
  end ->
  map si_backend (fst (fst (runFactory calls factory constructed)))
  = map createStorageService (requestedIds calls).
Proof.
  revert factory constructed.
  induction calls as [| [userId |] rest IH]; intros factory constructed Hinv;
    simpl; [done | |].
  - unfold getService.
    destruct (currentService factory) as [service |] eqn:Hcur.
    + destruct (sameUserId (currentUserId factory) userId) eqn:Hsame.
      * apply sameUserId_eq in Hsame.
        specialize (IH factory constructed).
        destruct (runFactory rest factory constructed) as [[handed f2] n2].
        simpl in *. rewrite Hcur in IH. rewrite IH by done.
        by rewrite Hinv, Hsame.
      * specialize (IH (mkStorageServiceFactory
                          (Some (mkServiceInstance constructed
                                   (createStorageService userId))) userId)
                       (S constructed)).
        destruct (runFactory rest _ (S constructed)) as [[handed f2] n2].
        simpl in *. by rewrite IH.
    + specialize (IH (mkStorageServiceFactory
                        (Some (mkServiceInstance constructed
                                 (createStorageService userId))) userId)
                     (S constructed)).
      destruct (runFactory rest _ (S constructed)) as [[handed f2] n2].
      simpl in *. by rewrite IH.
  - by apply IH.
Qed.

(** X15.  The cache never serves the wrong backend: in any run of
    [getService] and [clearCache] calls on a new factory, each instance
    handed out is the backend [createStorageService] selects for the
    identity asked for. *)
Theorem factory_serves_selected_backend (calls : list FactoryCall)
    (constructed : nat) :
  map si_backend (fst (fst (runFactory calls newFactory constructed)))
  = map createStorageService (requestedIds calls).
Proof. by apply runFactory_backends. Qed.

Lemma runFactory_serials (calls : list FactoryCall)
    (factory : StorageServiceFactory) (constructed : nat) :
  match currentService factory with
  | Some service => si_serial service < constructed
  | None => True
  end ->
  let '(handed, factory1, constructed1) :=
    runFactory calls factory constructed in
  constructed <= constructed1 /\
  Forall (fun service => si_serial service < constructed1) handed /\
  match currentService factory1 with
  | Some service => si_serial service < constructed1
  | None => True
  end.
Proof.
  revert factory constructed.
  induction calls as [| [userId |] rest IH]; intros factory constructed Hinv;
    simpl.
  - split; [lia |]. split; [constructor | done].
  - unfold getService.
    destruct (currentService factory) as [service |] eqn:Hcur;
      [destruct (sameUserId (currentUserId factory) userId) |].
    + specialize (IH factory constructed).
      destruct (runFactory rest factory constructed) as [[handed f2] n2].
      rewrite Hcur in IH. destruct (IH Hinv) as (Hle & Hall & Hcached).
      split; [done |]. split; [| done].
      constructor; [lia | done].
    + specialize (IH (mkStorageServiceFactory
                        (Some (mkServiceInstance constructed
                                 (createStorageService userId))) userId)
                     (S constructed)).
      destruct (runFactory rest _ (S constructed)) as [[handed f2] n2].
      simpl in IH. destruct IH as (Hle & Hall & Hcached); [lia |].
      split; [lia |]. split; [| done].
      constructor; [simpl; lia | done].
    + specialize (IH (mkStorageServiceFactory
                        (Some (mkServiceInstance constructed
                                 (createStorageService userId))) userId)
                     (S constructed)).
      destruct (runFactory rest _ (S constructed)) as [[handed f2] n2].
      simpl in IH. destruct IH as (Hle & Hall & Hcached); [lia |].
      split; [lia |]. split; [| done].
      constructor; [simpl; lia | done].
  - specialize (IH (clearCache factory) constructed).
    destruct (runFactory rest (clearCache factory) constructed)
      as [[handed f2] n2].
    by apply IH.
Qed.

(** X16.  After [clearCache], or when the identity differs from the one
    served last, [getService] hands out an instance that no earlier call
    of the run handed out. *)
Theorem getService_constructs_anew (calls : list FactoryCall)
    (userId : option string) :
  let '(handed, factory, constructed) := runFactory calls newFactory 0 in
  currentService factory = None \/
  sameUserId (currentUserId factory) userId = false ->
  fst (fst (getService userId factory constructed)) ∉ handed.
Proof.
  pose proof (runFactory_serials calls newFactory 0 I) as Hrun.
  destruct (runFactory calls newFactory 0) as [[handed factory] constructed].
  destruct Hrun as (_ & Hall & _).
  intros Hnew Hin.
  assert (Hserial : si_serial (fst (fst (getService userId factory constructed)))
                    = constructed).
  { unfold getService. destruct Hnew as [-> | Hdiff]; [done |].
    destruct (currentService factory); [| done]. by rewrite Hdiff. }
  eapply Forall_forall in Hall; [| exact Hin]. lia.
Qed.

Lemma getService_constructs_anew_witness :
  let '(handed, factory, constructed) :=
    runFactory [GetService (Some "user-1"); GetService (Some "user-1");
                ClearCache] newFactory 0 in
  fst (fst (getService (Some "user-1") factory constructed)) ∉ handed.
Proof.
  apply (getService_constructs_anew
           [GetService (Some "user-1"); GetService (Some "user-1"); ClearCache]
           (Some "user-1")).
  left. reflexivity.
Defined.

(** ** Contact management *)

Lemma find_app_fresh {A} (p : A -> bool) (xs : list A) (x : A) :
  (forall y, y ∈ xs -> p y = false) -> p x = true ->
  List.find p (xs ++ [x]) = Some x.
Proof.
  induction xs as [| y ys IH]; intros Hfresh Hp; simpl.
  - by rewrite Hp.
  - rewrite (Hfresh y) by by left. apply IH; [| done].
    intros z Hz. apply Hfresh. by right.
Qed.

Lemma find_app_found {A} (p : A -> bool) (xs ys : list A) (x : A) :
  List.find p xs = Some x -> List.find p (xs ++ ys) = Some x.
Proof.
  induction xs as [| y rest IH]; simpl; [done |].
  by destruct (p y).
Qed.

Lemma find_app_other {A} (p : A -> bool) (xs : list A) (x : A) :
  p x = false -> List.find p (xs ++ [x]) = List.find p xs.
Proof.
  intros Hp. induction xs as [| y ys IH]; simpl.
  - by rewrite Hp.
  - by destruct (p y).
Qed.

(** X17.  [addContact] appends one contact, with the generated id, the
    given name, method and date and the status "Not Contacted", after the
    contacts the job had, and changes nothing else of the job but
    updated-at; looked up by an id no earlier contact has, it is the
    contact found, and every other lookup answers as before. *)
Theorem addContact_appends (now contactId : string) (job : JobPosting)
    (input : AddContactInput) :
  (forall c, c ∈ jp_referralContacts job -> rc_id c <> contactId) ->
  let added := addContact now contactId job input in
  let contact := mkReferralContact contactId (ci_name input)
                   (ci_contactMethod input) (ci_dateContacted input)
                   "Not Contacted" in
  jp_referralContacts added = (jp_referralContacts job ++ [contact])%list /\
  withContacts (jp_referralContacts job) (jp_lastUpdated job) added = job /\
  jp_lastUpdated added = now /\
  getContact added contactId = Some contact /\
  (forall other, other <> contactId ->
     getContact added other = getContact job other).
Proof.
  intros Hfresh added contact. subst added contact.
  unfold addContact, getContact. simpl.
  split; [done |]. split; [by destruct job |]. split; [done |]. split.
  - apply find_app_fresh.
    + intros c Hc. unfold contactHasId. apply String.eqb_neq. by apply Hfresh.
    + unfold contactHasId. simpl. apply String.eqb_refl.
  - intros other Hother. apply find_app_other.
    unfold contactHasId. simpl. apply String.eqb_neq. congruence.
Qed.



Lemma applyStatusChanges_contact (contactId : string)
    (changes : list StatusChange) (job : JobPosting) (contact : ReferralContact) :
  getContact job contactId = Some contact ->
  getContact (applyStatusChanges contactId changes job) contactId
  = Some (fold_left (fun c change =>
                       contactWithStatus (sc_now change) (sc_status change) c)
                    changes contact).
Proof.
  unfold applyStatusChanges. revert job contact.
  induction changes as [| change rest IH]; intros job contact Hget; simpl;
    [done |].
  apply IH.
  unfold updateContactStatus, getContact in *.
  destruct (findIndex (contactHasId contactId) (jp_referralContacts job))
    as [index |] eqn:Hidx.
  - destruct (findIndex_lookup _ _ _ Hidx) as (found & Hlook & Hfind).
    rewrite Hlook. simpl. rewrite Hget in Hfind. injection Hfind as <-.
    apply find_insert_found; [done |].
    by destruct (find_elem_of _ _ _ Hget).
  - apply find_elem_of in Hget as [Hin Hid].
    pose proof (findIndex_None _ _ Hidx contact Hin). congruence.
Qed.

Lemma contact_stamp_kept (changes : list StatusChange)
    (contact : ReferralContact) (stamp : string) :
  rc_dateContacted contact = Some stamp -> stamp <> EmptyString ->
  rc_dateContacted
    (fold_left (fun c change =>
                  contactWithStatus (sc_now change) (sc_status change) c)
               changes contact) = Some stamp.
Proof.
  revert contact. induction changes as [| change rest IH];
    intros contact Hdate Hstamp; simpl; [done |].
  apply IH; [| done]. simpl. rewrite Hdate. simpl.
  apply truthy_spec in Hstamp. rewrite Hstamp.
  by rewrite andb_false_r.
Qed.

(** X19.  Contacted-at is set once: the first change of a contact without
    a date to "Contacted" stamps it with the time of that change, and no
    later run of status changes, away from "Contacted" and back included,
    alters a date that is set. *)
Theorem dateContacted_set_once (contactId : string) (job : JobPosting)
    (contact : ReferralContact) (first : StatusChange)
    (after : list StatusChange) :
  getContact job contactId = Some contact ->
  truthy_opt (rc_dateContacted contact) = false ->
  sc_status first = "Contacted" -> sc_now first <> EmptyString ->
  exists stamped final,
    getContact (applyStatusChanges contactId [first] job) contactId
    = Some stamped /\
    rc_dateContacted stamped = Some (sc_now first) /\
    getContact (applyStatusChanges contactId (first :: after) job) contactId
    = Some final /\
    rc_dateContacted final = Some (sc_now first).
Proof.
  intros Hget Hunset Hfirst Hnow.
  rewrite !(applyStatusChanges_contact _ _ _ _ Hget). simpl.
  eexists _, _. split; [reflexivity |].
  assert (Hstamp : rc_dateContacted
                     (contactWithStatus (sc_now first) (sc_status first) contact)
                   = Some (sc_now first)).
  { simpl. by rewrite Hfirst, Hunset. }
  split; [exact Hstamp |]. split; [reflexivity |].
  by apply contact_stamp_kept.
Qed.

Lemma dateContacted_set_once_witness :
  exists final,
    getContact
      (applyStatusChanges "c-1"
         [mkStatusChange "2024-03-01T00:00:00.000Z" "2024-03-01T00:00:00.001Z"
                         "Contacted";
          mkStatusChange "2024-03-05T00:00:00.000Z" "2024-03-05T00:00:00.001Z"
                         "No Response";
          mkStatusChange "2024-03-09T00:00:00.000Z" "2024-03-09T00:00:00.001Z"
                         "Contacted"]
         jobWithContacts) "c-1" = Some final /\
    rc_dateContacted final = Some "2024-03-01T00:00:00.000Z".
Proof.
  destruct (dateContacted_set_once "c-1" jobWithContacts
              (mkReferralContact "c-1" "Ada" "ada@example.com" None
                                 "Not Contacted")
              (mkStatusChange "2024-03-01T00:00:00.000Z"
                              "2024-03-01T00:00:00.001Z" "Contacted")
              [mkStatusChange "2024-03-05T00:00:00.000Z"
                              "2024-03-05T00:00:00.001Z" "No Response";
               mkStatusChange "2024-03-09T00:00:00.000Z"
                              "2024-03-09T00:00:00.001Z" "Contacted"])
    as (stamped & final & _ & _ & Hfinal & Hdate);
    [reflexivity | reflexivity | reflexivity | discriminate |].
  exists final. split; [exact Hfinal | exact Hdate].
Defined.

Lemma find_filter_other {A} (p q : A -> bool) (xs : list A) :
  (forall x, q x = true -> p x = true) ->
  List.find q (List.filter p xs) = List.find q xs.
Proof.
  intros Himp. induction xs as [| y ys IH]; simpl; [done |].
  destruct (p y) eqn:Ep; simpl.
  - by destruct (q y).
  - destruct (q y) eqn:Eq; [| done]. apply Himp in Eq. congruence.
Qed.

Lemma filter_twice {A} (p : A -> bool) (xs : list A) :
  List.filter p (List.filter p xs) = List.filter p xs.
Proof.
  induction xs as [| y ys IH]; simpl; [done |].
  destruct (p y) eqn:E; simpl; [| done]. by rewrite E, IH.
Qed.

Lemma filter_all {A} (p : A -> bool) (xs : list A) :
  (forall x, x ∈ xs -> p x = true) -> List.filter p xs = xs.
Proof.
  induction xs as [| y ys IH]; simpl; intros Hall; [done |].
  rewrite (Hall y) by by left. f_equal. apply IH.
  intros x Hx. apply Hall. by right.
Qed.

(** X20.  [removeContact] removes every contact with the id and no other:
    the id is no longer found, every other id is found as before, removing
    it again changes no contact, and when no contact had the id the
    contacts are untouched; updated-at is set to the time of the call in
    every case, and nothing else of the job changes. *)
Theorem removeContact_effect (now later : string) (job : JobPosting)
    (contactId : string) :
  let removed := removeContact now job contactId in
  getContact removed contactId = None /\
  (forall other, other <> contactId ->
     getContact removed other = getContact job other) /\
  jp_referralContacts (removeContact later removed contactId)
  = jp_referralContacts removed /\
  (getContact job contactId = None ->
   jp_referralContacts removed = jp_referralContacts job) /\
  jp_lastUpdated removed = now /\
  jp_lastUpdated (removeContact later removed contactId) = later /\
  withContacts (jp_referralContacts job) (jp_lastUpdated job) removed = job.
Proof.
  intros removed. subst removed. unfold removeContact, getContact. simpl.
  split; [apply find_filter_out |].
  split; [| split; [| split; [| split; [done | split; [done |]]]]].
  - intros other Hother. apply find_filter_other.
    intros c Hc. unfold contactHasId in *. apply String.eqb_eq in Hc.
    apply negb_true_iff. apply String.eqb_neq. congruence.
  - apply filter_twice.
  - intros Hnone. apply filter_all. intros c Hc.
    apply list_elem_of_In in Hc.
    pose proof (find_none _ _ Hnone c Hc) as Hno. by rewrite Hno.
  - by destruct job.
Qed.


Lemma addContact_appends_witness :
  getContact (addContact "2024-03-01T00:00:00.000Z" "c-3" jobWithContacts
                         (mkAddContactInput "Cy" "phone" None)) "c-3"
  = Some (mkReferralContact "c-3" "Cy" "phone" None "Not Contacted").
Proof.
  apply (addContact_appends "2024-03-01T00:00:00.000Z" "c-3" jobWithContacts
                            (mkAddContactInput "Cy" "phone" None)).
  apply elem_of_computed. repeat constructor; discriminate.
Defined.

(** ** Application state *)

(** X21.  UPDATE_JOB touches the records with the given id and nothing
    else: the list keeps its length, a record with another id stays where
    and what it was, every other part of the state is kept, and when no
    record has the id the state is returned unchanged. *)
Theorem update_job_touches_only_id (now id : string) (u : JobUpdates)
    (state : AppState) :
  let state' := appReducer now state (UPDATE_JOB id u) in
  length (st_jobs state') = length (st_jobs state) /\
  (forall i job, st_jobs state !! i = Some job -> jp_id job <> id ->
     st_jobs state' !! i = Some job) /\
  withJobs (st_jobs state) state' = state /\
  ((forall job, job ∈ st_jobs state -> jp_id job <> id) -> state' = state).
Proof.
  simpl. split; [by rewrite length_map |]. split; [| split].
  - intros i job Hlook Hid.
    change (map (reduceJob now id u) (st_jobs state))
      with (reduceJob now id u <$> st_jobs state).
    rewrite list_lookup_fmap, Hlook. simpl. f_equal.
    unfold reduceJob. apply String.eqb_neq in Hid. by rewrite Hid.
  - by destruct state.
  - intros Hnone. destruct state as [jobs q f sel open loading err].
    unfold withJobs. simpl in *. f_equal.
    induction jobs as [| job rest IH]; simpl; [done |].
    f_equal.
    + unfold reduceJob.
      assert (Hid : jp_id job <> id) by (apply Hnone; by left).
      apply String.eqb_neq in Hid. by rewrite Hid.
    + apply IH. intros j Hj. apply Hnone. by right.
Qed.

(** X22.  DELETE_JOB removes exactly the records with the given id, keeps
    the others, and clears the selection exactly when the selected id is
    the deleted one; deleting the id of a record just added, which no
    earlier record had, gives back the earlier list. *)
Theorem delete_job_removes_only_id (now id : string) (state : AppState)
    (added : JobPosting) :
  let state' := appReducer now state (DELETE_JOB id) in
  (forall job, job ∈ st_jobs state' <-> job ∈ st_jobs state /\ jp_id job <> id) /\
  st_selectedJobId state'
  = (if decide (st_selectedJobId state = Some id) then None
     else st_selectedJobId state) /\
  ((forall job, job ∈ st_jobs state -> jp_id job <> jp_id added) ->
   st_jobs (appReducer now (appReducer now state (ADD_JOB added))
                       (DELETE_JOB (jp_id added)))
   = st_jobs state).
Proof.
  simpl. split; [| split].
  - intros job. rewrite !list_elem_of_In, filter_In.
    rewrite negb_true_iff, String.eqb_neq. done.
  - destruct (st_selectedJobId state) as [sel |]; [| by case_decide].
    destruct (String.eqb sel id) eqn:E.
    + apply String.eqb_eq in E. subst. by rewrite decide_True.
    + apply String.eqb_neq in E. rewrite decide_False; [done | congruence].
  - intros Hfresh. rewrite String.eqb_refl. simpl.
    apply filter_all. intros job Hjob.
    apply negb_true_iff, String.eqb_neq. by apply Hfresh.
Qed.

(** X23.  The optimistic copy and the stored copy of an updated record
    agree but for the clock: for an update that names neither the
    identifier nor created-at, applied to the same record, the record the
    reducer builds and the record the Local Backend builds from the
    callback's update object are equal in every field other than
    updated-at and applied-at; updated-at is the reducer's clock reading in
    the one and the backend's in the other; applied-at is equal too unless
    the update turns the record to "Applied", in which case the one carries
    the reducer's clock reading and the other the callback's. *)
Theorem optimistic_copy_matches_stored (shownAt askedAt storedAt : string)
    (job : JobPosting) (u : JobUpdates) :
  up_id u = None -> up_dateAdded u = None ->
  let shown := reduceJob shownAt (jp_id job) u job in
  let stored := mergedRecord storedAt job (finalUpdates askedAt job u) in
  (forall t d, withDateApplied d (withLastUpdated t shown)
               = withDateApplied d (withLastUpdated t stored)) /\
  jp_lastUpdated shown = shownAt /\
  jp_lastUpdated stored = storedAt /\
  (if turnsApplied u job
   then jp_dateApplied shown = Some shownAt /\
        jp_dateApplied stored = Some askedAt
   else jp_dateApplied shown = jp_dateApplied stored).
Proof.
  intros Hid Hadded shown stored. subst shown stored.
  destruct u; simpl in Hid, Hadded; subst.
  unfold reduceJob, mergedRecord, finalUpdates.
  rewrite String.eqb_refl. cbn [negb].
  destruct (turnsApplied _ job);
    (split; [intros t d; reflexivity |]);
    (split; [reflexivity |]); (split; [reflexivity |]).
  - split; reflexivity.
  - reflexivity.
Qed.

Lemma optimistic_copy_matches_stored_witness :
  let shown := reduceJob "2024-01-03T00:00:00.000Z" "id-1"
                         (statusUpdate "Applied") sampleJob in
  let stored := mergedRecord "2024-01-03T00:00:00.950Z" sampleJob
                  (finalUpdates "2024-01-03T00:00:00.900Z" sampleJob
                                (statusUpdate "Applied")) in
  jp_status shown = jp_status stored /\
  jp_dateApplied shown = Some "2024-01-03T00:00:00.000Z" /\
  jp_dateApplied stored = Some "2024-01-03T00:00:00.900Z".
Proof.
  intros shown stored.
  destruct (optimistic_copy_matches_stored "2024-01-03T00:00:00.000Z"
              "2024-01-03T00:00:00.900Z" "2024-01-03T00:00:00.950Z"
              sampleJob (statusUpdate "Applied"))
    as (Hsame & _ & _ & Hstamps); [reflexivity | reflexivity |].
  split; [| exact Hstamps].
  exact (f_equal jp_status (Hsame EmptyString None)).
Defined.

(** X24.  The [deleteJob] callback keeps view and store in step: a record
    leaves the application state only when the backend has written the
    collection without it; when the backend answers false the jobs shown
    are the ones shown before and an error is set. *)
Theorem contextDeleteJob_in_step `{Runtime} (now id : string)
    (state : AppState) (ls : LocalStorage) :
  let state' := fst (contextDeleteJob now id state ls) in
  let ls' := snd (contextDeleteJob now id state ls) in
  if fst (deleteJob id ls)
  then (forall job, job ∈ st_jobs state' -> jp_id job <> id) /\
       (forall job, job ∈ storedJobs ls' -> jp_id job <> id) /\
       st_error state' = st_error state
  else st_jobs state' = st_jobs state /\
       st_error state' = Some "Failed to delete job. Please try again." /\
       ls_items ls' !! STORAGE_KEY = ls_items ls !! STORAGE_KEY.
Proof.
  unfold contextDeleteJob.
  destruct (deleteJob id ls) as [removed ls1] eqn:Hdel. simpl.
  destruct removed; simpl.
  - split; [| split; [| done]].
    + intros job Hjob. apply list_elem_of_In in Hjob.
      apply filter_In in Hjob as [_ Hid].
      by apply negb_true_iff, String.eqb_neq in Hid.
    + revert Hdel. unfold deleteJob.
      destruct (getAllJobs ls) as [jobs ls0].
      destruct (_ =? _)%nat; [done |].
      intros Hsave job.
      pose proof (saveAllJobs_true
                    (List.filter (fun j => negb (hasId id j)) jobs) ls0) as Hw.
      rewrite Hsave in Hw. simpl in Hw.
      destruct (Hw eq_refl) as (_ & _ & Hlook).
      unfold storedJobs. rewrite Hlook. intros Hjob.
      apply list_elem_of_In in Hjob. apply filter_In in Hjob as [_ Hid].
      unfold hasId in Hid. by apply negb_true_iff, String.eqb_neq in Hid.
  - split; [done |]. split; [done |].
    revert Hdel. unfold deleteJob.
    pose proof (getAllJobs_frame ls) as [_ Hread].
    specialize (Hread STORAGE_KEY (not_eq_sym STORAGE_KEY_not_testKey)).
    destruct (getAllJobs ls) as [jobs ls0]. simpl in Hread.
    destruct (_ =? _)%nat; [by intros [= <-] |].
    intros Hsave.
    destruct (saveAllJobs_stored_key
                (List.filter (fun j => negb (hasId id j)) jobs) ls0)
      as [Htrue | Hsame].
    + rewrite Hsave in Htrue. done.
    + rewrite Hsave in Hsame. simpl in Hsame. congruence.
Qed.

Lemma clearLocalData_empties_witness :
  let ls := mkLocalStorage false
              (<["theme" := OtherText "dark"]>
                 {[ STORAGE_KEY := JobsJson [olderJob; sampleJob] ]}) in
  fst (hasLocalData (H := roomyBrowser) (clearLocalData ls)) = false /\
  ls_items (clearLocalData ls) !! "theme" = Some (OtherText "dark").
Proof.
  intros ls.
  destruct (clearLocalData_empties (H := roomyBrowser) ls)
    as (_ & Hhas & _ & Hkeys).
  split; [exact Hhas |]. rewrite Hkeys by discriminate.
  vm_compute; reflexivity.
Defined.


Lemma removeContact_effect_witness :
  getContact (removeContact "2024-03-01T00:00:00.000Z" jobWithContacts "c-1")
             "c-2"
  = getContact jobWithContacts "c-2" /\
  jp_referralContacts
    (removeContact "2024-03-01T00:00:00.000Z" jobWithContacts "c-9")
  = jp_referralContacts jobWithContacts /\
  jp_lastUpdated
    (removeContact "2024-03-01T00:00:00.000Z" jobWithContacts "c-9")
  = "2024-03-01T00:00:00.000Z".
Proof.
  destruct (removeContact_effect "2024-03-01T00:00:00.000Z"
              "2024-03-02T00:00:00.000Z" jobWithContacts "c-1")
    as (_ & Hother & _).
  destruct (removeContact_effect "2024-03-01T00:00:00.000Z"
              "2024-03-02T00:00:00.000Z" jobWithContacts "c-9")
    as (_ & _ & _ & Habsent & Hmoved & _).
  split; [apply Hother; discriminate |].
  split; [apply Habsent; reflexivity | exact Hmoved].
Defined.

Lemma update_job_touches_only_id_witness :
  appReducer "2024-03-01T00:00:00.000Z" sampleState
             (UPDATE_JOB "non-existent" (statusUpdate "Applied"))
  = sampleState.
Proof.
  apply (update_job_touches_only_id "2024-03-01T00:00:00.000Z" "non-existent"
           (statusUpdate "Applied") sampleState).
  apply elem_of_computed. repeat constructor; discriminate.
Defined.

Lemma delete_job_removes_only_id_witness :
  st_jobs (appReducer "2024-03-01T00:00:00.000Z"
             (appReducer "2024-03-01T00:00:00.000Z" sampleState
                         (ADD_JOB unreachableJob))
             (DELETE_JOB "id-4"))
  = st_jobs sampleState.
Proof.
  apply (delete_job_removes_only_id "2024-03-01T00:00:00.000Z" "id-4"
           sampleState unreachableJob).
  apply elem_of_computed. repeat constructor; discriminate.
Defined.

Lemma getAllJobs_contents_witness :
  fst (getAllJobs (H := roomyBrowser) (storageWith [olderJob; sampleJob]))
  ≡ₚ [olderJob; sampleJob] /\
  fst (getAllJobs (H := roomyBrowser)
         (mkLocalStorage true {[ STORAGE_KEY := JobsJson [sampleJob] ]})) = [].
Proof.
  destruct (getAllJobs_contents (H := roomyBrowser)
              (storageWith [olderJob; sampleJob])) as (Hlisted & _).
  destruct (getAllJobs_contents (H := roomyBrowser)
              (mkLocalStorage true {[ STORAGE_KEY := JobsJson [sampleJob] ]}))
    as (_ & Hnothing & _).
  split; [apply Hlisted; vm_compute; reflexivity | by apply Hnothing].
Defined.


(** * Save then get, and applied-at *)

Section SaveThenGet.

Context `{Runtime}.


End SaveThenGet.


(** ** Applied-at *)

(** What one update does to applied-at and status: in the record the
    reducer builds and in the record the backend builds from the callback's
    update object. *)
Lemma reduceJob_dateApplied (now id : string) (u : JobUpdates)
    (job : JobPosting) :
  leavesDateApplied u ->
  jp_dateApplied (reduceJob now id u job)
  = if hasId id job && turnsApplied u job then Some now
    else jp_dateApplied job.
Proof.
  intros Hleave. unfold reduceJob, hasId.
  destruct (String.eqb (jp_id job) id); simpl; [| done].
  destruct (turnsApplied u job); simpl; [done | by rewrite Hleave].
Qed.

Lemma reduceJob_status (now id : string) (u : JobUpdates) (job : JobPosting) :
  jp_status (reduceJob now id u job)
  = if hasId id job then default (jp_status job) (up_status u)
    else jp_status job.
Proof.
  unfold reduceJob, hasId.
  destruct (String.eqb (jp_id job) id); simpl; [| done].
  by destruct (turnsApplied u job).
Qed.

Lemma stored_dateApplied (now later : string) (u : JobUpdates)
    (job : JobPosting) :
  leavesDateApplied u ->
  jp_dateApplied (mergedRecord later job (finalUpdates now job u))
  = if turnsApplied u job then Some now else jp_dateApplied job.
Proof.
  intros Hleave. unfold finalUpdates.
  destruct (turnsApplied u job); simpl; [done | by rewrite Hleave].
Qed.

Lemma stored_status (now later : string) (u : JobUpdates) (job : JobPosting) :
  jp_status (mergedRecord later job (finalUpdates now job u))
  = default (jp_status job) (up_status u).
Proof. unfold finalUpdates. by destruct (turnsApplied u job). Qed.

Lemma stored_id (now later id : string) (u : JobUpdates) (job : JobPosting) :
  hasId id job = true ->
  hasId id (mergedRecord later job (finalUpdates now job u)) = true.
Proof. done. Qed.

Lemma turnsApplied_asks (u : JobUpdates) (job : JobPosting) :
  asksApplied u = false -> turnsApplied u job = false.
Proof. unfold asksApplied, turnsApplied. by intros ->. Qed.

Lemma turnsApplied_first (u : JobUpdates) (job : JobPosting) :
  asksApplied u = true -> notYetApplied job -> turnsApplied u job = true.
Proof.
  unfold asksApplied, turnsApplied. intros -> [Hdate Hstatus].
  rewrite Hdate. apply String.eqb_neq in Hstatus. by rewrite Hstatus.
Qed.

Lemma turnsApplied_stamped (u : JobUpdates) (job : JobPosting) (stamp : string) :
  jp_dateApplied job = Some stamp -> stamp <> EmptyString ->
  turnsApplied u job = false.
Proof.
  intros Hdate Hstamp. unfold turnsApplied. rewrite Hdate. simpl.
  apply truthy_spec in Hstamp. rewrite Hstamp. by rewrite andb_false_r.
Qed.

Lemma status_not_asked (u : JobUpdates) (job : JobPosting) :
  asksApplied u = false -> jp_status job <> "Applied" ->
  default (jp_status job) (up_status u) <> "Applied".
Proof.
  unfold asksApplied. intros Hask Hstatus.
  destruct (up_status u) as [s |]; simpl; [| done].
  by apply String.eqb_neq.
Qed.

Lemma status_asked (u : JobUpdates) (job : JobPosting) :
  asksApplied u = true -> default (jp_status job) (up_status u) = "Applied".
Proof.
  unfold asksApplied.
  destruct (up_status u) as [s |]; simpl; [| done].
  apply String.eqb_eq.
Qed.

Lemma reduceJob_not_yet (now id : string) (u : JobUpdates) (job : JobPosting) :
  leavesDateApplied u -> asksApplied u = false -> notYetApplied job ->
  notYetApplied (reduceJob now id u job).
Proof.
  intros Hleave Hask [Hdate Hstatus]. split.
  - rewrite reduceJob_dateApplied by done.
    by rewrite turnsApplied_asks, andb_false_r.
  - rewrite reduceJob_status. destruct (hasId id job); [| done].
    by apply status_not_asked.
Qed.

Lemma reduceJob_keeps_stamp (now id : string) (u : JobUpdates)
    (job : JobPosting) (stamp : string) :
  leavesDateApplied u -> jp_dateApplied job = Some stamp ->
  stamp <> EmptyString ->
  jp_dateApplied (reduceJob now id u job) = Some stamp.
Proof.
  intros Hleave Hdate Hstamp. rewrite reduceJob_dateApplied by done.
  by rewrite (turnsApplied_stamped _ _ stamp), andb_false_r.
Qed.

(** The reducer, position by position. *)
Lemma update_job_lookup (now id : string) (u : JobUpdates) (state : AppState)
    (i : nat) :
  st_jobs (appReducer now state (UPDATE_JOB id u)) !! i
  = reduceJob now id u <$> (st_jobs state !! i).
Proof.
  simpl.
  change (map (reduceJob now id u) (st_jobs state))
    with (reduceJob now id u <$> st_jobs state).
  apply list_lookup_fmap.
Qed.

(** A property of the record at a position that every update of the run
    preserves holds at that position after the run. *)
Lemma reduceUpdates_invariant (P : JobPosting -> Prop) (id : string)
    (dispatches : list Dispatch) :
  Forall (fun d => forall job,
            P job -> P (reduceJob (dp_now d) id (dp_updates d) job))
         dispatches ->
  forall (state : AppState) (i : nat) (job : JobPosting),
    st_jobs state !! i = Some job -> P job ->
    exists job',
      st_jobs (reduceUpdates id dispatches state) !! i = Some job' /\ P job'.
Proof.
  unfold reduceUpdates.
  induction 1 as [| d rest Hd _ IH]; intros state i job Hlook HP;
    cbn [fold_left]; [by exists job |].
  apply (IH _ i (reduceJob (dp_now d) id (dp_updates d) job)).
  - by rewrite update_job_lookup, Hlook.
  - by apply Hd.
Qed.

Lemma find_by_id_perm (id : string) (l1 l2 : list JobPosting) (x : JobPosting) :
  l1 ≡ₚ l2 -> NoDup (jobIds l1) ->
  List.find (hasId id) l1 = Some x -> List.find (hasId id) l2 = Some x.
Proof.
  intros Hperm Hnd Hfind. destruct (find_elem_of _ _ _ Hfind) as [Hin Hid].
  apply find_unique; [by rewrite <- Hperm | done |].
  intros y Hy Hyid. rewrite <- Hperm in Hy.
  apply (NoDup_ids_unique l1); [done | done | done |].
  unfold hasId in *. apply String.eqb_eq in Hid, Hyid. congruence.
Qed.

Section StoredAppliedAt.

Context `{Runtime}.

Lemma getJob_heldRecord (id : string) (ls : LocalStorage) (stored : JobPosting) :
  NoDup (jobIds (storedJobs ls)) -> heldRecord id ls = Some stored ->
  fst (isStorageAvailable ls) = true -> fst (getJob id ls) = Some stored.
Proof.
  intros Hnd Hheld Hav. unfold getJob.
  pose proof (getAllJobs_available ls Hav) as Hlist.
  destruct (getAllJobs ls) as [jobs ls1]. simpl in *. subst jobs.
  apply (find_by_id_perm id (storedJobs ls)); [| done | done].
  symmetry. apply sortNewestFirst_perm.
Qed.

(** The backend's [updateJob] on its own: applied-at comes from the update
    object or from the record. *)
Lemma updateJob_dateApplied (now id : string) (u : JobUpdates)
    (ls : LocalStorage) (new : JobPosting) :
  leavesDateApplied u -> fst (updateJob now id u ls) = Some new ->
  exists old,
    fst (getJob id ls) = Some old /\ jp_dateApplied new = jp_dateApplied old.
Proof.
  intros Hleave. unfold updateJob, getJob.
  destruct (getAllJobs ls) as [jobs ls1]. simpl.
  destruct (findIndex (hasId id) jobs) as [index |] eqn:Hidx; [| done].
  destruct (findIndex_lookup _ _ _ Hidx) as (old & Hlook & Hfind).
  rewrite Hlook.
  destruct (saveAllJobs _ ls1) as [written ls2]. simpl.
  intros [= <-]. exists old. split; [done |]. simpl. by rewrite Hleave.
Qed.

(** What a call of the callback leaves in the store: the collection as it
    was, or the listing with the found record replaced by the merged one. *)
Lemma persistUpdate_stored (now later id : string) (u : JobUpdates)
    (ls : LocalStorage) :
  storedJobs (persistUpdate now later id u ls) = storedJobs ls \/
  exists old index,
    List.find (hasId id) (sortNewestFirst (storedJobs ls)) = Some old /\
    findIndex (hasId id) (sortNewestFirst (storedJobs ls)) = Some index /\
    sortNewestFirst (storedJobs ls) !! index = Some old /\
    storedJobs (persistUpdate now later id u ls)
    = <[index := mergedRecord later old (finalUpdates now old u)]>
        (sortNewestFirst (storedJobs ls)).
Proof.
  unfold persistUpdate, getJob.
  destruct (fst (isStorageAvailable ls)) eqn:Hav.
  - pose proof (getAllJobs_available ls Hav) as Hlist.
    pose proof (getAllJobs_stored ls) as Hkept.
    destruct (getAllJobs ls) as [jobs ls1]. simpl in *.
    destruct (List.find (hasId id) jobs) as [job |] eqn:Hfind;
      [| by left].
    unfold updateJob.
    destruct (fst (isStorageAvailable ls1)) eqn:Hav1.
    + pose proof (getAllJobs_available ls1 Hav1) as Hlist1.
      pose proof (getAllJobs_stored ls1) as Hkept1.
      destruct (getAllJobs ls1) as [jobs1 ls2]. simpl in *.
      rewrite Hkept in Hlist1. rewrite <- Hlist in Hlist1. subst jobs1.
      destruct (findIndex (hasId id) jobs) as [index |] eqn:Hidx;
        [| left; simpl; congruence].
      destruct (findIndex_lookup _ _ _ Hidx) as (old & Hlook & Hfind').
      rewrite Hlook. rewrite Hfind in Hfind'. injection Hfind' as <-.
      pose proof (saveAllJobs_stored
                    (<[index := mergedRecord later job (finalUpdates now job u)]>
                       jobs) ls2) as Hwritten.
      destruct (saveAllJobs _ ls2) as [written ls3]. simpl in *.
      destruct Hwritten as [Hw | Hw].
      * right. exists job, index. rewrite <- Hlist. by rewrite Hw.
      * left. congruence.
    + pose proof (getAllJobs_unavailable ls1 Hav1) as Hlist1.
      rewrite Hlist1. simpl. by left.
  - pose proof (getAllJobs_unavailable ls Hav) as Hlist.
    rewrite Hlist. simpl. by left.
Qed.

(** The record held after a call is the one held before, or the merged
    one; stored identifiers stay distinct. *)
Lemma persistUpdate_held (now later id : string) (u : JobUpdates)
    (ls : LocalStorage) (job : JobPosting) :
  NoDup (jobIds (storedJobs ls)) ->
  heldRecord id ls = Some job ->
  NoDup (jobIds (storedJobs (persistUpdate now later id u ls))) /\
  (heldRecord id (persistUpdate now later id u ls) = Some job \/
   heldRecord id (persistUpdate now later id u ls)
   = Some (mergedRecord later job (finalUpdates now job u))).
Proof.
  intros Hnd Hheld.
  destruct (persistUpdate_stored now later id u ls)
    as [Hsame | (old & index & Hold & Hidx & Hlook & Hnew)].
  - unfold heldRecord in *. rewrite Hsame. by split; [| left].
  - assert (old = job) as ->.
    { apply (find_by_id_perm id _ (sortNewestFirst (storedJobs ls))) in Hheld;
        [congruence | | done].
      symmetry. apply sortNewestFirst_perm. }
    split.
    + rewrite Hnew. unfold jobIds.
      rewrite (map_insert_same jp_id _ index _ job) by done.
      apply (NoDup_ids_perm (storedJobs ls)); [| done].
      symmetry. apply sortNewestFirst_perm.
    + right. unfold heldRecord. rewrite Hnew.
      apply find_insert_found; [done |].
      apply stored_id. by destruct (find_elem_of _ _ _ Hold).
Qed.

(** The call whose write the store accepts leaves the merged record. *)
Lemma persistUpdate_written (now later id : string) (u : JobUpdates)
    (ls : LocalStorage) (job : JobPosting) (index : nat) :
  NoDup (jobIds (storedJobs ls)) ->
  heldRecord id ls = Some job ->
  let afterRead := snd (getJob id ls) in
  let listing := fst (getAllJobs afterRead) in
  let merged := mergedRecord later job (finalUpdates now job u) in
  findIndex (hasId id) listing = Some index ->
  fst (saveAllJobs (<[index := merged]> listing) (snd (getAllJobs afterRead)))
  = true ->
  heldRecord id (persistUpdate now later id u ls) = Some merged.
Proof.
  intros Hnd Hheld afterRead listing merged Hidx Hsaved.
  subst afterRead listing merged. revert Hidx Hsaved.
  unfold persistUpdate, getJob.
  destruct (fst (isStorageAvailable ls)) eqn:Hav.
  - pose proof (getAllJobs_available ls Hav) as Hlist.
    pose proof (getAllJobs_stored ls) as Hkept.
    destruct (getAllJobs ls) as [jobs ls1]. simpl in *.
    intros Hidx Hsaved.
    destruct (findIndex_lookup _ _ _ Hidx) as (old & Hlook & Hfind).
    assert (Hav1 : fst (isStorageAvailable ls1) = true).
    { destruct (fst (isStorageAvailable ls1)) eqn:E; [done |].
      rewrite (getAllJobs_unavailable ls1 E) in Hidx. done. }
    pose proof (getAllJobs_available ls1 Hav1) as Hlist1.
    rewrite Hkept, <- Hlist in Hlist1.
    assert (Hjob : List.find (hasId id) jobs = Some job).
    { rewrite Hlist. apply (find_by_id_perm id (storedJobs ls)); [| done | done].
      symmetry. apply sortNewestFirst_perm. }
    rewrite Hjob. unfold updateJob.
    destruct (getAllJobs ls1) as [jobs1 ls2]. simpl in *. subst jobs1.
    rewrite Hidx, Hlook.
    assert (old = job) as -> by congruence.
    pose proof (saveAllJobs_true
                  (<[index := mergedRecord later job (finalUpdates now job u)]>
                     jobs) ls2 Hsaved) as (_ & _ & Hkey).
    destruct (saveAllJobs _ ls2) as [written ls3]. simpl in *.
    unfold heldRecord, storedJobs. rewrite Hkey.
    apply find_insert_found; [done |].
    apply stored_id. by destruct (find_elem_of _ _ _ Hjob).
  - rewrite (getAllJobs_unavailable ls Hav). simpl.
    by rewrite (getAllJobs_unavailable ls Hav).
Qed.

(** A property of the held record that every call of the run preserves
    holds of the held record after the run. *)
Lemma persistUpdates_invariant (P : JobPosting -> Prop) (id : string)
    (calls : list UpdateCall) :
  Forall (fun c => forall job,
            P job ->
            P (mergedRecord (uc_later c) job
                            (finalUpdates (uc_now c) job (uc_updates c))))
         calls ->
  forall (ls : LocalStorage) (job : JobPosting),
    NoDup (jobIds (storedJobs ls)) -> heldRecord id ls = Some job -> P job ->
    exists job',
      heldRecord id (persistUpdates id calls ls) = Some job' /\ P job'.
Proof.
  unfold persistUpdates.
  induction 1 as [| c rest Hc _ IH]; intros ls job Hnd Hheld HP;
    cbn [fold_left]; [by exists job |].
  destruct (persistUpdate_held (uc_now c) (uc_later c) id (uc_updates c)
              ls job Hnd Hheld) as [Hnd' [Hsame | Hnew]].
  - by apply (IH _ job).
  - apply (IH _ _ Hnd' Hnew). by apply Hc.
Qed.

(** C4, amended.  The Local Backend's [updateJob] never stamps applied-at:
    for an update object that does not name dateApplied it returns the
    record with the dateApplied it had.  The stamp is set above the backend,
    by the reducer's UPDATE_JOB and by the [updateJob] callback, for update
    objects that do not name dateApplied.  In the reducer, for the record at
    any position of the view: a record without dateApplied and with a status
    other than "Applied" stays so through every run of updates none of which
    asks for "Applied"; an update for its id that asks for "Applied" gives
    it the status "Applied" and the reducer's clock reading as dateApplied;
    a non-empty dateApplied is left as it is by every run of updates.  In
    the store, with distinct stored ids, for the record held for the id
    (the one [getJob] returns when the store is available): it stays without
    dateApplied and outside "Applied" through every run of calls none of
    which asks for "Applied"; after a call that asks for "Applied" the store
    holds the record as it was or the merged record, which has the status
    "Applied" and the callback's clock reading as dateApplied, and it holds
    the merged record whenever the backend finds the id and the store
    accepts the write; a non-empty dateApplied is left as it is by every run
    of calls. *)
Theorem dateApplied_stamped_by_callers
    (id : string) (u : JobUpdates) (dispatches : list Dispatch)
    (calls : list UpdateCall) (now later : string) :
  leavesDateApplied u ->
  Forall (fun d => leavesDateApplied (dp_updates d)) dispatches ->
  Forall (fun c => leavesDateApplied (uc_updates c)) calls ->
  (forall ls new,
     fst (updateJob later id u ls) = Some new ->
     exists old,
       fst (getJob id ls) = Some old /\
       jp_dateApplied new = jp_dateApplied old) /\
  (forall state i shown,
     st_jobs state !! i = Some shown ->
     (notYetApplied shown ->
      Forall (fun d => asksApplied (dp_updates d) = false) dispatches ->
      exists job,
        st_jobs (reduceUpdates id dispatches state) !! i = Some job /\
        notYetApplied job) /\
     (notYetApplied shown -> jp_id shown = id -> asksApplied u = true ->
      exists job,
        st_jobs (appReducer now state (UPDATE_JOB id u)) !! i = Some job /\
        jp_status job = "Applied" /\ jp_dateApplied job = Some now) /\
     (forall stamp,
        jp_dateApplied shown = Some stamp -> stamp <> EmptyString ->
        exists job,
          st_jobs (reduceUpdates id dispatches state) !! i = Some job /\
          jp_dateApplied job = Some stamp)) /\
  (forall ls stored,
     NoDup (jobIds (storedJobs ls)) -> heldRecord id ls = Some stored ->
     (fst (isStorageAvailable ls) = true ->
      fst (getJob id ls) = Some stored) /\
     (notYetApplied stored ->
      Forall (fun c => asksApplied (uc_updates c) = false) calls ->
      exists job,
        heldRecord id (persistUpdates id calls ls) = Some job /\
        notYetApplied job) /\
     (notYetApplied stored -> asksApplied u = true ->
      let ls' := persistUpdate now later id u ls in
      let merged := mergedRecord later stored (finalUpdates now stored u) in
      let afterRead := snd (getJob id ls) in
      let listing := fst (getAllJobs afterRead) in
      jp_status merged = "Applied" /\ jp_dateApplied merged = Some now /\
      (heldRecord id ls' = Some stored \/ heldRecord id ls' = Some merged) /\
      (forall index,
         findIndex (hasId id) listing = Some index ->
         fst (saveAllJobs (<[index := merged]> listing)
                          (snd (getAllJobs afterRead))) = true ->
         heldRecord id ls' = Some merged)) /\
     (forall stamp,
        jp_dateApplied stored = Some stamp -> stamp <> EmptyString ->
        exists job,
          heldRecord id (persistUpdates id calls ls) = Some job /\
          jp_dateApplied job = Some stamp)).
Proof.
  intros Hu Hdispatches Hcalls. split; [| split].
  - intros ls new. by apply updateJob_dateApplied.
  - intros state i shown Hlook. split; [| split].
    + intros Hnot Hask.
      apply (reduceUpdates_invariant notYetApplied id dispatches)
        with (job := shown); [| done | done].
      apply Forall_forall. intros d Hd job Hjob.
      apply reduceJob_not_yet; [| | done].
      * by apply (elem_of_computed _ _ Hdispatches).
      * by apply (elem_of_computed _ _ Hask).
    + intros Hnot Hid Hask. exists (reduceJob now id u shown).
      split; [by rewrite update_job_lookup, Hlook |].
      assert (Hhas : hasId id shown = true)
        by (unfold hasId; by apply String.eqb_eq).
      split.
      * rewrite reduceJob_status, Hhas. by apply status_asked.
      * rewrite reduceJob_dateApplied by done.
        by rewrite Hhas, turnsApplied_first.
    + intros stamp Hdate Hstamp.
      apply (reduceUpdates_invariant
               (fun job => jp_dateApplied job = Some stamp) id dispatches)
        with (job := shown); [| done | done].
      apply Forall_forall. intros d Hd job Hjob.
      apply reduceJob_keeps_stamp; [| done | done].
      by apply (elem_of_computed _ _ Hdispatches).
  - intros ls stored Hnd Hheld. split; [| split; [| split]].
    + by apply getJob_heldRecord.
    + intros Hnot Hask.
      apply (persistUpdates_invariant notYetApplied id calls)
        with (job := stored); [| done | done | done].
      apply Forall_forall. intros c Hc job [Hdate Hstatus]. split.
      * rewrite stored_dateApplied
          by by apply (elem_of_computed _ _ Hcalls).
        rewrite turnsApplied_asks; [done |].
        by apply (elem_of_computed _ _ Hask).
      * rewrite stored_status. apply status_not_asked; [| done].
        by apply (elem_of_computed _ _ Hask).
    + intros Hnot Hask ls' merged afterRead listing.
      split; [| split; [| split]].
      * unfold merged. rewrite stored_status. by apply status_asked.
      * unfold merged. rewrite stored_dateApplied by done.
        by rewrite turnsApplied_first.
      * by destruct (persistUpdate_held now later id u ls stored Hnd Hheld).
      * intros index. by apply persistUpdate_written.
    + intros stamp Hdate Hstamp.
      apply (persistUpdates_invariant
               (fun job => jp_dateApplied job = Some stamp) id calls)
        with (job := stored); [| done | done | done].
      apply Forall_forall. intros c Hc job Hjob.
      rewrite stored_dateApplied
        by by apply (elem_of_computed _ _ Hcalls).
      by rewrite (turnsApplied_stamped _ _ stamp).
Qed.

End StoredAppliedAt.

(** C4, as stated, fails for the Local Backend's [updateJob], one of the
    update operations: on a record saved with the status "Saved" and no
    dateApplied, the update [{ status: "Applied" }] returns a record whose
    dateApplied is still null. *)
Lemma updateJob_leaves_dateApplied_null :
  ~ (forall (R : Runtime) (now id : string) (ls : LocalStorage)
            (old new : JobPosting),
       fst (getJob id ls) = Some old -> notYetApplied old ->
       fst (updateJob now id (statusUpdate "Applied") ls) = Some new ->
       jp_dateApplied new <> None).
Proof.
  intros Hall.
  apply (Hall roomyBrowser "2025-03-01T09:30:00.000Z" "id-1"
              (storageWith [sampleJob]) sampleJob
              (mergedRecord "2025-03-01T09:30:00.000Z" sampleJob
                            (statusUpdate "Applied"))).
  - vm_compute; reflexivity.
  - split; [reflexivity | vm_compute; discriminate].
  - vm_compute; reflexivity.
  - reflexivity.
Qed.

Lemma dateApplied_stamped_by_callers_witness :
  let t1 := "2025-03-01T09:30:00.000Z" in
  let t2 := "2025-03-01T09:30:00.250Z" in
  let ls := storageWith [olderJob; sampleJob] in
  let runs := [statusDispatch "2025-04-01T08:00:00.000Z" "Interview";
               statusDispatch "2025-05-01T08:00:00.000Z" "Applied"] in
  let calls := [statusCall "2025-04-01T08:00:00.000Z"
                           "2025-04-01T08:00:00.125Z" "Interview";
                statusCall "2025-05-01T08:00:00.000Z"
                           "2025-05-01T08:00:00.125Z" "Applied"] in
  let state1 := appReducer t1 sampleState
                           (UPDATE_JOB "id-1" (statusUpdate "Applied")) in
  let ls1 := persistUpdate (H := roomyBrowser) t1 t2 "id-1"
                           (statusUpdate "Applied") ls in
  (jp_dateApplied
     <$> fst (updateJob (H := roomyBrowser) t2 "id-1"
                        (statusUpdate "Applied") ls)) = Some None /\
  (jp_dateApplied <$> st_jobs state1 !! 0%nat) = Some (Some t1) /\
  (jp_dateApplied <$> st_jobs (reduceUpdates "id-1" runs state1) !! 0%nat)
  = Some (Some t1) /\
  (jp_dateApplied <$> heldRecord "id-1" ls1) = Some (Some t1) /\
  (jp_dateApplied <$> heldRecord "id-1"
                        (persistUpdates (H := roomyBrowser) "id-1" calls ls1))
  = Some (Some t1).
Proof.
  intros t1 t2 ls runs calls state1 ls1.
  assert (Hsample : notYetApplied sampleJob)
    by (split; [reflexivity | vm_compute; discriminate]).
  destruct (dateApplied_stamped_by_callers (H := roomyBrowser) "id-1"
              (statusUpdate "Applied") runs calls t1 t2)
    as (Hbackend & Hreducer & Hstore).
  { reflexivity. }
  { repeat constructor. }
  { repeat constructor. }
  split; [| split; [| split; [| split]]].
  - destruct (fst (updateJob (H := roomyBrowser) t2 "id-1"
                             (statusUpdate "Applied") ls)) as [new |] eqn:E;
      [| vm_compute in E; discriminate].
    destruct (Hbackend ls new E) as (old & Hold & Hsame).
    vm_compute in Hold. injection Hold as <-.
    exact (f_equal Some Hsame).
  - destruct (Hreducer sampleState 0%nat sampleJob eq_refl)
      as (_ & Hstamp & _).
    destruct (Hstamp Hsample eq_refl eq_refl) as (job & Hjob & _ & Hdate).
    unfold state1. rewrite Hjob. exact (f_equal Some Hdate).
  - destruct (Hreducer state1 0%nat
                (reduceJob t1 "id-1" (statusUpdate "Applied") sampleJob)
                eq_refl) as (_ & _ & Hkeep).
    destruct (Hkeep t1 eq_refl) as (job & Hjob & Hdate);
      [vm_compute; discriminate |].
    rewrite Hjob. exact (f_equal Some Hdate).
  - destruct (Hstore ls sampleJob) as (_ & _ & Hstamp & _).
    { apply (bool_decide_unpack _). vm_compute. exact I. }
    { vm_compute; reflexivity. }
    destruct (Hstamp Hsample eq_refl) as (_ & Hdate & _ & Hwritten).
    unfold ls1. rewrite (Hwritten 0%nat).
    + exact (f_equal Some Hdate).
    + vm_compute; reflexivity.
    + vm_compute; reflexivity.
  - destruct (Hstore ls1
                (mergedRecord t2 sampleJob
                   (finalUpdates t1 sampleJob (statusUpdate "Applied"))))
      as (_ & _ & _ & Hkeep).
    { apply (bool_decide_unpack _). vm_compute. exact I. }
    { vm_compute; reflexivity. }
    destruct (Hkeep t1 eq_refl) as (job & Hjob & Hdate);
      [vm_compute; discriminate |].
    rewrite Hjob. exact (f_equal Some Hdate).
Defined.
